(** * Journiv backend: mood-taxonomy cache and background file-processing pool

    A shallow embedding of

    - [app/services/file_processing_service.py]: the lazily created
      process-wide [ThreadPoolExecutor], job admission, the worker body and
      pool shutdown;
    - [app/services/mood_service.py]: the class-level mood cache
      ([_mood_cache]), its copy-in/copy-out accessors and the two cached
      queries.

    Python code that raises is embedded in a state-and-exception monad;
    Python objects that can be aliased (lists, [Mood] instances) live in an
    explicit object store. *)

From Stdlib Require Import ZArith NArith Ascii String.
From stdpp Require Import gmap strings list fin_maps.

(* ===================================================================== *)
(** * Python exceptions and the state-and-exception monad *)
(* ===================================================================== *)

Module Py.

(** The exception classes the two services name or can meet.  Every class
    but the last two derives from Python's [Exception]; [SystemExit] and
    [KeyboardInterrupt] derive from [BaseException] only, so a handler
    written [except Exception] does not catch them. *)
Inductive ExcClass :=
  | ValueError
  | RuntimeError
  | AttributeError
  | TypeError
  | MoodNotFoundError
  | MediaNotFoundError
  | SQLAlchemyError
  | OtherException      (* any further subclass of Exception *)
  | SystemExit
  | KeyboardInterrupt.

#[global] Instance ExcClass_eq_dec : EqDecision ExcClass.
Proof. solve_decision. Defined.

Record PyExc := mkExc { exc_class : ExcClass; exc_msg : string }.

#[global] Instance PyExc_eq_dec : EqDecision PyExc.
Proof. solve_decision. Defined.

(** [isinstance(e, Exception)] *)
Definition is_Exception (e : PyExc) : bool :=
  match exc_class e with
  | SystemExit | KeyboardInterrupt => false
  | _ => true
  end.

(** [isinstance(e, cls)] for the leaf classes named in handlers. *)
Definition isinstance (e : PyExc) (c : ExcClass) : bool :=
  bool_decide (exc_class e = c).

(** The outcome of running a piece of Python: it returns a value or an
    exception is in flight. *)
Inductive Result (A : Type) :=
  | Return (a : A)
  | Raise (e : PyExc).
Arguments Return {A} a.
Arguments Raise {A} e.

Definition returns {A} (r : Result A) : bool :=
  match r with Return _ => true | Raise _ => false end.

(** Computations over a mutable world [W]. *)
Definition M (W A : Type) : Type := W → Result A * W.

Definition ret {W A} (a : A) : M W A := λ w, (Return a, w).

Definition bind {W A B} (c : M W A) (k : A → M W B) : M W B :=
  λ w, match c w with
       | (Return a, w') => k a w'
       | (Raise e, w') => (Raise e, w')
       end.

Definition raise {W A} (e : PyExc) : M W A := λ w, (Raise e, w).

Definition get {W} : M W W := λ w, (Return w, w).

Definition modify {W} (f : W → W) : M W unit := λ w, (Return tt, f w).

(** [try: body  except ...: handler].  [handler e] is [None] when no
    [except] clause matches [e], which then stays in flight. *)
Definition try_except {W A} (body : M W A) (handler : PyExc → option (M W A))
  : M W A :=
  λ w, match body w with
       | (Return a, w') => (Return a, w')
       | (Raise e, w') =>
           match handler e with
           | Some h => h w'
           | None => (Raise e, w')
           end
       end.

(** [try: body  finally: fin].  [fin] runs on every exit of [body]; an
    exception raised by [fin] itself replaces the outcome of [body]. *)
Definition try_finally {W A} (body : M W A) (fin : M W unit) : M W A :=
  λ w, match body w with
       | (r, w') =>
           match fin w' with
           | (Return _, w'') => (r, w'')
           | (Raise e, w'') => (Raise e, w'')
           end
       end.

(** A call whose outcome does not depend on the world. *)
Definition lift {W A} (r : Result A) : M W A := λ w, (r, w).

(** [if cond: raise e] *)
Definition raise_if {W} (cond : bool) (e : PyExc) : M W unit :=
  if cond then raise e else ret tt.

End Py.
Import Py.

(** stdpp's monad notations [x ← c; k] and [c;; k] are used for [M W]. *)
#[global] Instance M_ret {W} : MRet (M W) := λ A, @ret W A.
#[global] Instance M_bind {W} : MBind (M W) := λ A B k c, @bind W A B c k.

(* ===================================================================== *)
(** * Python [str] methods used by the services

    A [str] is modelled by a [string] whose characters are the code points
    0..255; on that range the methods below are exactly CPython's. *)
(* ===================================================================== *)

Module Str.

Definition code (a : ascii) : N := N_of_ascii a.

(** [str.isspace] on one character. *)
Definition isspace (a : ascii) : bool :=
  let n := code a in
  (((9 <=? n) && (n <=? 13)) || ((28 <=? n) && (n <=? 32))
  || (n =? 133) || (n =? 160))%N.

Fixpoint drop_while (p : ascii → bool) (l : list ascii) : list ascii :=
  match l with
  | [] => []
  | a :: l' => if p a then drop_while p l' else l
  end.

Definition strip_with (p : ascii → bool) (s : string) : string :=
  string_of_list_ascii
    (rev (drop_while p (rev (drop_while p (list_ascii_of_string s))))).

(** [s.strip()] *)
Definition strip (s : string) : string := strip_with isspace s.

(** [s.strip(chars)] *)
Definition strip_chars (chars : list ascii) (s : string) : string :=
  strip_with (λ a, bool_decide (a ∈ chars)) s.

(** [s.replace(old, '')] for a non-empty [old]: the non-overlapping
    occurrences of [old] are removed, scanning from the left.  [skip]
    counts the characters of a matched occurrence still to be dropped. *)
Fixpoint remove_go (old : string) (skip : nat) (s : string) : string :=
  match s with
  | EmptyString => EmptyString
  | String a s' =>
      match skip with
      | S k => remove_go old k s'
      | O => if String.prefix old s
             then remove_go old (String.length old - 1) s'
             else String a (remove_go old 0 s')
      end
  end.

Definition remove_all (old s : string) : string := remove_go old 0 s.

(** [str.lower] on one character: A-Z, and the Latin-1 capitals
    U+00C0..U+00DE except the multiplication sign U+00D7. *)
Definition lower_char (a : ascii) : ascii :=
  let n := code a in
  if (((65 <=? n) && (n <=? 90))
      || ((192 <=? n) && (n <=? 222) && negb (n =? 215)))%N
  then ascii_of_N (n + 32) else a.

(** [s.lower()] *)
Fixpoint lower (s : string) : string :=
  match s with
  | EmptyString => EmptyString
  | String a s' => String (lower_char a) (lower s')
  end.

(** Truthiness of a [str]: [not s] holds of the empty string only. *)
Definition truthy (s : string) : bool :=
  match s with EmptyString => false | _ => true end.

End Str.

(* ===================================================================== *)
(** * [uuid.UUID(hex)] of the Python standard library

    The constructor is not part of the repository; it is modelled after
    CPython's [Lib/uuid.py] and [int(text, 16)], on the string path the
    service uses. *)
(* ===================================================================== *)

Module uuid.

(** Value of a base-16 digit. *)
Definition hex_digit (a : ascii) : option Z :=
  let n := Z.of_N (Str.code a) in
  if (48 <=? n)%Z && (n <=? 57)%Z then Some (n - 48)%Z
  else if (97 <=? n)%Z && (n <=? 102)%Z then Some (n - 87)%Z
  else if (65 <=? n)%Z && (n <=? 70)%Z then Some (n - 55)%Z
  else None.

(** The digit run of [int(text, 16)]: hexadecimal digits, single
    underscores allowed between digits only.  [prev_us] records that the
    previous character was an underscore; [acc] is the value so far. *)
Fixpoint digits (prev_us : bool) (acc : Z) (l : list ascii) : option Z :=
  match l with
  | [] => if prev_us then None else Some acc
  | a :: l' =>
      if bool_decide (a = "_"%char)
      then if prev_us then None else digits true acc l'
      else match hex_digit a with
           | Some d => digits false (16 * acc + d)%Z l'
           | None => None
           end
  end.

(** Characters [int] skips around a literal: the Unicode spaces above
    U+007E are first turned into blanks, then C's [isspace] is applied. *)
Definition int_space (a : ascii) : bool :=
  let n := Str.code a in
  (((9 <=? n) && (n <=? 13)) || (n =? 32) || (n =? 133) || (n =? 160))%N.

(** [int(text, 16)]; [None] stands for its [ValueError]. *)
Definition int16 (text : string) : option Z :=
  let l := list_ascii_of_string (Str.strip_with int_space text) in
  let '(neg, l) :=
    match l with
    | "+"%char :: l' => (false, l')
    | "-"%char :: l' => (true, l')
    | _ => (false, l)
    end in
  let l :=
    match l with
    | "0"%char :: x :: l' =>
        if bool_decide (x = "x"%char) || bool_decide (x = "X"%char)
        then match l' with "_"%char :: l'' => l'' | _ => l' end
        else l
    | _ => l
    end in
  match l with
  | [] => None
  | "_"%char :: _ => None
  | _ => (λ v, if neg then (- v)%Z else v) <$> digits false 0 l
  end.

(** [uuid.UUID(hex)]: returns the 128-bit value, or raises [ValueError]. *)
Definition UUID (hex : string) : Result Z :=
  let hex := Str.remove_all "uuid:" (Str.remove_all "urn:" hex) in
  let hex := Str.remove_all "-" (Str.strip_chars ["{"; "}"]%char hex) in
  if negb (String.length hex =? 32)%nat
  then Raise (mkExc ValueError "badly formed hexadecimal UUID string")
  else match int16 hex with
       | None =>
           Raise (mkExc ValueError
                    ("invalid literal for int() with base 16: '" +:+ hex +:+ "'"))
       | Some n =>
           if negb ((0 <=? n)%Z && (n <? 2 ^ 128)%Z)
           then Raise (mkExc ValueError
                         "int is out of range (need a 128-bit value)")
           else Return n
       end.

End uuid.

(* ===================================================================== *)
(** * [app/services/file_processing_service.py] *)
(* ===================================================================== *)

Module FileProcessing.

(** The job descriptor: the arguments of [process_uploaded_file_async]. *)
Record Job := mkJob { media_id : string; file_path : string; user_id : string }.

(** Calls to [app.core.logging_config]. *)
Inductive LogRecord :=
  | info (m : string)
  | warning (m : string)
  | error (e : PyExc).

(** The fields of [concurrent.futures.ThreadPoolExecutor] that the service
    reads or that its calls change.  [_threads] counts the worker threads
    started so far; [_idle_semaphore] is released by a worker after each
    work item and taken by [submit] in place of starting a thread. *)
Record ThreadPoolExecutor := mkExecutor {
  _max_workers : nat;
  thread_name_prefix : string;
  _threads : nat;
  _idle_semaphore : nat;
  _work_queue : list Job;
  _shutdown : bool
}.

(** The module globals, the storage sessions opened so far ([true]: still
    open) and the log. *)
Record World := mkWorld {
  _processing_executor : option ThreadPoolExecutor;
  _is_shutting_down : bool;
  sessions : list bool;
  log : list LogRecord
}.

(** What a caller can hold after a call. *)
Inductive PyVal :=
  | VNone
  | VBool (b : bool)
  | VInt (n : nat)
  | VStr (s : string).

(** A [dict] literal, in insertion order. *)
Definition Dict : Type := list (string * PyVal).

(** The state at import time (lines 17-18). *)
Definition initial : World :=
  {| _processing_executor := None; _is_shutting_down := false;
     sessions := []; log := [] |}.

Definition set_executor (o : option ThreadPoolExecutor) (w : World) : World :=
  {| _processing_executor := o; _is_shutting_down := _is_shutting_down w;
     sessions := sessions w; log := log w |}.

Definition set_shutting_down (b : bool) (w : World) : World :=
  {| _processing_executor := _processing_executor w; _is_shutting_down := b;
     sessions := sessions w; log := log w |}.

Definition set_sessions (s : list bool) (w : World) : World :=
  {| _processing_executor := _processing_executor w;
     _is_shutting_down := _is_shutting_down w;
     sessions := s; log := log w |}.

Definition emit (r : LogRecord) : M World unit :=
  modify (λ w, {| _processing_executor := _processing_executor w;
                  _is_shutting_down := _is_shutting_down w;
                  sessions := sessions w; log := log w ++ [r] |}).

Definition log_info (m : string) : M World unit := emit (info m).
Definition log_warning (m : string) : M World unit := emit (warning m).
Definition log_error (e : PyExc) : M World unit := emit (error e).

(** [Session(engine)]: a new open session; its index identifies it. *)
Definition Session : M World nat :=
  w ← get;
  modify (set_sessions (sessions w ++ [true]));;
  mret (length (sessions w)).

(** [session.close()] *)
Definition Session_close (sid : nat) : M World unit :=
  modify (λ w, set_sessions (<[sid := false]> (sessions w)) w).

(** ** The executor object *)

(** [ThreadPoolExecutor(max_workers=4, thread_name_prefix="file-processing")] *)
Definition new_executor : ThreadPoolExecutor :=
  {| _max_workers := 4; thread_name_prefix := "file-processing";
     _threads := 0; _idle_semaphore := 0; _work_queue := []; _shutdown := false |}.

(** [executor.submit(fn, *args)]: refused once the executor is shut down;
    otherwise the work item joins the queue and a worker thread is started
    unless one is idle or [_max_workers] are running.  The result is the
    executor object after the call. *)
Definition executor_submit (ex : ThreadPoolExecutor) (j : Job)
  : Result ThreadPoolExecutor :=
  if _shutdown ex
  then Raise (mkExc RuntimeError "cannot schedule new futures after shutdown")
  else
    let idle := _idle_semaphore ex in
    let started := _threads ex in
    Return {| _max_workers := _max_workers ex;
              thread_name_prefix := thread_name_prefix ex;
              _threads := if bool_decide (idle = 0)
                          then (if bool_decide (started < _max_workers ex)
                                then S started else started)
                          else started;
              _idle_semaphore := pred idle;
              _work_queue := _work_queue ex ++ [j];
              _shutdown := false |}.

Section Service.

(** [MediaService.process_uploaded_file], the processing step of a job.
    [app/services/media_service.py] is outside the sources at hand: the
    step's outcome for each job (it returns, or it raises) is a
    parameter. *)
Variable process_uploaded_file : Job → Result unit.

Definition media_service_process_uploaded_file (j : Job) : M World unit :=
  lift (process_uploaded_file j).

(** Lines 21-34. *)
Definition _get_processing_executor : M World ThreadPoolExecutor :=
  w ← get;
  match _processing_executor w, _is_shutting_down w with
  | None, false =>
      modify (set_executor (Some new_executor));;
      log_info "File processing thread pool initialized"
  | _, _ => mret tt
  end;;
  w ← get;
  match _processing_executor w with
  | None =>
      raise (mkExc RuntimeError
               "Thread pool executor is not available (shutting down)")
  | Some executor => mret executor
  end.

(** Lines 102-129, the worker body. *)
Definition _process_uploaded_file_sync (j : Job) : M World unit :=
  thread_session ← Session;
  try_finally
    (try_except
       (log_info ("Starting file processing for media " +:+ media_id j);;
        media_service_process_uploaded_file j;;
        log_info ("File processing completed successfully for media "
                  +:+ media_id j))
       (λ e,
          if isinstance e MediaNotFoundError
          then Some (log_warning
                       ("Media not found during processing: " +:+ exc_msg e))
          else if is_Exception e
          then Some (log_error e)
          else None))
    (Session_close thread_session).

(** A pool worker running one work item: CPython's [_WorkItem.run] stores
    whatever the callable raises in the job's future, so nothing reaches
    the worker loop. *)
Definition work_item_run (j : Job) : M World unit :=
  λ w, (Return tt, snd (_process_uploaded_file_sync j w)).

Fixpoint run_work_items (q : list Job) : M World unit :=
  match q with
  | [] => mret tt
  | j :: q' => work_item_run j;; run_work_items q'
  end.

(** [executor.shutdown(wait=True)]: the executor refuses further work and
    the caller joins the workers, which first finish the queued items. *)
Definition executor_shutdown (ex : ThreadPoolExecutor)
  : M World ThreadPoolExecutor :=
  run_work_items (_work_queue ex);;
  mret {| _max_workers := _max_workers ex;
          thread_name_prefix := thread_name_prefix ex;
          _threads := _threads ex;
          _idle_semaphore := _idle_semaphore ex + length (_work_queue ex);
          _work_queue := []; _shutdown := true |}.

(** Lines 37-45. *)
Definition _shutdown_executor : M World unit :=
  w ← get;
  match _processing_executor w, _is_shutting_down w with
  | Some executor, false =>
      modify (set_shutting_down true);;
      log_info "Shutting down file processing thread pool";;
      executor_shutdown executor;;
      modify (set_executor None);;
      modify (set_shutting_down false)
  | _, _ => mret tt
  end.

(** Lines 59-100.  The arguments are [str], so [isinstance(file_path, str)]
    holds and the check of line 81 is the one on [file_path.strip()];
    [_get_processing_executor] returns an executor or raises, so the test
    of lines 86-87 never fires.  The local [executor] and the global name
    the same object: the mutation done by [executor.submit] is written to
    the global slot. *)
Definition process_uploaded_file_async (j : Job) : M World unit :=
  try_except
    (raise_if (negb (Str.truthy (media_id j)) || negb (Str.truthy (file_path j))
               || negb (Str.truthy (user_id j)))
       (mkExc ValueError "media_id, file_path, and user_id are required");;
     try_except
       (lift (uuid.UUID (media_id j));;
        lift (uuid.UUID (user_id j));;
        mret tt)
       (λ e, if isinstance e ValueError
             then Some (raise (mkExc ValueError
                                 ("Invalid UUID format: " +:+ exc_msg e)))
             else None);;
     raise_if (negb (Str.truthy (Str.strip (file_path j))))
       (mkExc ValueError "file_path must be a non-empty string");;
     executor ← _get_processing_executor;
     match executor_submit executor j with
     | Raise e => raise e
     | Return executor' => modify (set_executor (Some executor'))
     end;;
     log_info ("File processing task submitted for media " +:+ media_id j))
    (λ e, if is_Exception e then Some (log_error e;; raise e) else None).

(** Lines 131-166. *)
Definition get_processing_status : M World Dict :=
  try_except
    (executor ← _get_processing_executor;
     w ← get;
     let status := [("is_shutting_down", VBool (_is_shutting_down w))] in
     try_except
       (mret (status ++
              [("max_workers", VInt (_max_workers executor));
               ("active_threads", VInt (_threads executor));
               ("pending_tasks", VInt (length (_work_queue executor)));
               ("shutdown", VBool (_shutdown executor))]))
       (λ e, if isinstance e AttributeError || isinstance e TypeError
             then Some (mret (status ++
                              [("max_workers", VStr "unavailable");
                               ("active_threads", VStr "unavailable");
                               ("pending_tasks", VStr "unavailable");
                               ("shutdown", VStr "unavailable")]))
             else None))
    (λ e, if is_Exception e
          then Some (log_warning ("Failed to get processing status: "
                                  +:+ exc_msg e);;
                     w ← get;
                     mret [("error", VStr (exc_msg e));
                           ("is_shutting_down", VBool (_is_shutting_down w))])
          else None).

(** Lines 168-174; [wait] only selects the log line. *)
Definition shutdown_processing (wait : bool) : M World unit :=
  _shutdown_executor;;
  if wait
  then log_info "File processing thread pool shutdown completed"
  else log_info "File processing thread pool shutdown initiated".

(** ** Call sequences

    The calls that reach the pool: the three service methods, and a pool
    worker taking the next work item off the queue, running it and
    reporting itself idle. *)
Inductive Call :=
  | Submit (j : Job)
  | Status
  | Shutdown (wait : bool)
  | Worker.

Definition worker_step : M World unit :=
  w ← get;
  match _processing_executor w with
  | Some ex =>
      match _work_queue ex with
      | j :: q =>
          modify (set_executor
                    (Some {| _max_workers := _max_workers ex;
                             thread_name_prefix := thread_name_prefix ex;
                             _threads := _threads ex;
                             _idle_semaphore := S (_idle_semaphore ex);
                             _work_queue := q; _shutdown := _shutdown ex |}));;
          work_item_run j
      | [] => mret tt
      end
  | None => mret tt
  end.

Definition call (c : Call) : M World (option Dict) :=
  match c with
  | Submit j => process_uploaded_file_async j;; mret None
  | Status => d ← get_processing_status; mret (Some d)
  | Shutdown wait => shutdown_processing wait;; mret None
  | Worker => worker_step;; mret None
  end.

(** The world after a sequence of calls; a caller that meets an exception
    goes on with the next call. *)
Fixpoint calls (cs : list Call) (w : World) : World :=
  match cs with
  | [] => w
  | c :: cs' => calls cs' (snd (call c w))
  end.

End Service.

(** ** Descriptors and pool states, as the properties below name them *)

(** [uuid.UUID(text)] constructs a UUID. *)
Definition well_formed_uuid (text : string) : bool := returns (uuid.UUID text).

(** A descriptor that passes every check of lines 70-82. *)
Definition admissible (j : Job) : bool :=
  Str.truthy (media_id j) && Str.truthy (file_path j) && Str.truthy (user_id j)
  && well_formed_uuid (media_id j) && well_formed_uuid (user_id j)
  && Str.truthy (Str.strip (file_path j)).

(** A descriptor with an empty field, an identifier that is not a
    well-formed UUID, or a file path that is blank. *)
Definition malformed (j : Job) : Prop :=
  media_id j = "" ∨ file_path j = "" ∨ user_id j = ""
  ∨ well_formed_uuid (media_id j) = false
  ∨ well_formed_uuid (user_id j) = false
  ∨ Str.strip (file_path j) = "".

(** Between two calls the flag is clear and an executor in the slot
    accepts work. *)
Definition quiescent (w : World) : Prop :=
  _is_shutting_down w = false
  ∧ ∀ executor, _processing_executor w = Some executor →
                _shutdown executor = false.

(** The pool singleton: the two module globals. *)
Definition pool (w : World) : option ThreadPoolExecutor * bool :=
  (_processing_executor w, _is_shutting_down w).

(** The executor a first submission of [j] leaves behind. *)
Definition fresh_executor_with (j : Job) : ThreadPoolExecutor :=
  {| _max_workers := 4; thread_name_prefix := "file-processing";
     _threads := 1; _idle_semaphore := 0; _work_queue := [j];
     _shutdown := false |}.

(** A well-formed descriptor and two processing steps, for the examples. *)
Definition sample_job : Job :=
  {| media_id := "12345678-1234-5678-1234-567812345678";
     file_path := "/data/media/upload.png";
     user_id := "urn:uuid:{0a0b0c0d-0000-4000-8000-00000000beef}" |}.

Definition step_ok : Job → Result unit := λ _, Return tt.

Definition step_faulty : Job → Result unit :=
  λ _, Raise (mkExc OtherException "cannot identify image file").

End FileProcessing.

(* ===================================================================== *)
(** * [app/services/mood_service.py] *)
(* ===================================================================== *)

Module MoodService.

(** References to Python objects. *)
Abbreviation loc := positive.

(** A [Mood] instance ([app/models/mood.py], with the columns inherited
    from [BaseModel]).  Every field holds an immutable Python value: a
    [uuid.UUID], a [str] or a [datetime]. *)
Record Mood := mkMood {
  id : Z;
  name : string;
  icon : option string;
  category : string;
  created_at : Z;
  updated_at : Z
}.

#[global] Instance Mood_eq_dec : EqDecision Mood.
Proof. solve_decision. Defined.

#[global] Instance Mood_inhabited : Inhabited Mood :=
  populate (mkMood 0 "" None "" 0 0).

(** Modelled from the spec: [app/models/enums.py], which declares
    [MoodCategory], is not among the sources.  The spec gives the category
    as drawn from the fixed closed set {positive, negative, neutral}; the
    check constraint of [app/models/mood.py] lists the same three values. *)
Inductive MoodCategory := POSITIVE | NEGATIVE | NEUTRAL.

(** Modelled from the spec: [member.value], the three category names. *)
Definition value (c : MoodCategory) : string :=
  match c with
  | POSITIVE => "positive"
  | NEGATIVE => "negative"
  | NEUTRAL => "neutral"
  end.

(** The two statements the cached queries build. *)
Inductive Statement :=
  | select_moods                       (* ordered by category, name *)
  | select_moods_where (c : string).   (* of category [c], ordered by name *)

(** The store of [Mood] instances, the store of [list] objects, the class
    attribute [_mood_cache] (each key refers to a list object) and the
    statements executed so far. *)
Record World := mkWorld {
  mood_objs : gmap loc Mood;
  list_objs : gmap loc (list loc);
  _mood_cache : gmap string loc;
  executed : list Statement
}.

Definition empty_world : World :=
  {| mood_objs := ∅; list_objs := ∅; _mood_cache := ∅; executed := [] |}.

(** A service instance: [self.session], given by what executing a
    statement yields, the rows or a storage error. *)
Record MoodService := mkService {
  session : Statement → Result (list Mood)
}.

Definition set_mood_objs (f : gmap loc Mood → gmap loc Mood) (w : World) :=
  {| mood_objs := f (mood_objs w); list_objs := list_objs w;
     _mood_cache := _mood_cache w; executed := executed w |}.

Definition set_list_objs (f : gmap loc (list loc) → gmap loc (list loc))
    (w : World) :=
  {| mood_objs := mood_objs w; list_objs := f (list_objs w);
     _mood_cache := _mood_cache w; executed := executed w |}.

Definition set_cache (f : gmap string loc → gmap string loc) (w : World) :=
  {| mood_objs := mood_objs w; list_objs := list_objs w;
     _mood_cache := f (_mood_cache w); executed := executed w |}.

Definition set_executed (f : list Statement → list Statement) (w : World) :=
  {| mood_objs := mood_objs w; list_objs := list_objs w;
     _mood_cache := _mood_cache w; executed := f (executed w) |}.

(** ** The object store *)

(** Constructing a [Mood]: a new object, distinct from every live one. *)
Definition new_Mood (m : Mood) : M World loc :=
  w ← get;
  let a := fresh (dom (mood_objs w)) in
  modify (set_mood_objs <[a := m]>);;
  mret a.

(** Constructing a list: a new list object. *)
Definition new_list (items : list loc) : M World loc :=
  w ← get;
  let l := fresh (dom (list_objs w)) in
  modify (set_list_objs <[l := items]>);;
  mret l.

(** Following a reference.  Python references always name a live object
    (see [closed] below), so the default is never what is read. *)
Definition the_mood (w : World) (a : loc) : Mood := mood_objs w !!! a.
Definition the_list (w : World) (l : loc) : list loc :=
  default [] (list_objs w !! l).

(** The value of a list of moods: the records its items hold, in order. *)
Definition view (w : World) (l : loc) : list Mood := the_mood w <$> the_list w l.

(** The comprehension [[Mood(id=mood.id, ..., updated_at=mood.updated_at)
    for mood in items]] of lines 49-58 and 68-77. *)
Fixpoint copy_moods (items : list loc) : M World (list loc) :=
  match items with
  | [] => mret []
  | mood :: rest =>
      w ← get;
      c ← new_Mood {| id := id (the_mood w mood);
                      name := name (the_mood w mood);
                      icon := icon (the_mood w mood);
                      category := category (the_mood w mood);
                      created_at := created_at (the_mood w mood);
                      updated_at := updated_at (the_mood w mood) |};
      cs ← copy_moods rest;
      mret (c :: cs)
  end.

(** ** The service *)

(** Lines 34-36: [category or "__all__"]. *)
Definition _cache_key (category : option string) : string :=
  match category with
  | Some c => if Str.truthy c then c else "__all__"
  | None => "__all__"
  end.

(** Lines 38-42.  The lock is reentrant and every critical section below is
    straight-line code over the store, so in a sequential run taking it has
    no effect. *)
Definition invalidate_mood_cache : M World unit :=
  modify (set_cache (λ _, ∅)).

(** Lines 44-58; [moods] refers to the caller's list. *)
Definition _store_cache (key : string) (moods : loc) : M World unit :=
  w ← get;
  copies ← copy_moods (the_list w moods);
  l ← new_list copies;
  modify (set_cache <[key := l]>).

(** Lines 60-77. *)
Definition _get_cached_moods (key : string) : M World (option loc) :=
  w ← get;
  match _mood_cache w !! key with
  | None => mret None
  | Some cached =>
      copies ← copy_moods (the_list w cached);
      l ← new_list copies;
      mret (Some l)
  end.

(** Modelled from the spec: [MoodCategory(text)], the lookup of an [Enum]
    member by value; it yields the member with that value and raises
    [ValueError] when there is none. *)
Definition MoodCategory_of (text : string) : M World MoodCategory :=
  if bool_decide (text = "positive") then mret POSITIVE
  else if bool_decide (text = "negative") then mret NEGATIVE
  else if bool_decide (text = "neutral") then mret NEUTRAL
  else raise (mkExc ValueError
                ("'" +:+ text +:+ "' is not a valid MoodCategory")).

(** Lines 85-90. *)
Definition _normalize_category (category : string) : M World string :=
  try_except
    (c ← MoodCategory_of (Str.lower category); mret (value c))
    (λ exc, if isinstance exc ValueError
            then Some (raise (mkExc MoodNotFoundError
                                ("Invalid mood category '" +:+ category
                                 +:+ "'")))
            else None).

Fixpoint new_Moods (rows : list Mood) : M World (list loc) :=
  match rows with
  | [] => mret []
  | m :: rest => a ← new_Mood m; l ← new_Moods rest; mret (a :: l)
  end.

(** [list(self.session.exec(statement))]: the statement is executed; a
    storage error is raised as it is, otherwise the rows arrive as [Mood]
    instances in a new list.  The instances are taken to be new ones;
    the cache never holds an instance that came from a session, only
    copies. *)
Definition exec_list (self : MoodService) (statement : Statement)
  : M World loc :=
  modify (set_executed (λ l, l ++ [statement]));;
  match session self statement with
  | Raise e => raise e
  | Return rows => items ← new_Moods rows; new_list items
  end.

(** Lines 131-141. *)
Definition get_all_moods (self : MoodService) : M World loc :=
  let cache_key := _cache_key None in
  cached ← _get_cached_moods cache_key;
  match cached with
  | Some cached => mret cached
  | None =>
      moods ← exec_list self select_moods;
      _store_cache cache_key moods;;
      mret moods
  end.

(** Lines 148-159. *)
Definition get_moods_by_category (self : MoodService) (category : string)
  : M World loc :=
  normalized ← _normalize_category category;
  let cache_key := _cache_key (Some normalized) in
  cached ← _get_cached_moods cache_key;
  match cached with
  | Some cached => mret cached
  | None =>
      moods ← exec_list self (select_moods_where normalized);
      _store_cache cache_key moods;;
      mret moods
  end.

(** ** Well-formed stores and caller mutations *)

(** Every reference names a live object: cache values are live lists and
    the items of live lists are live [Mood] instances. *)
Definition closed (w : World) : Prop :=
  map_Forall (λ _ l, is_Some (list_objs w !! l)) (_mood_cache w)
  ∧ map_Forall (λ _ items, Forall (λ a, is_Some (mood_objs w !! a)) items)
      (list_objs w).

#[global] Instance closed_dec w : Decision (closed w).
Proof. unfold closed. apply _. Defined.

(** What is cached under [key]: the records of the cached list. *)
Definition snapshot (w : World) (key : string) : option (list Mood) :=
  view w <$> (_mood_cache w !! key).

(** The caller of a cache read holds the returned list [r].  Whatever it
    does to that list object and to the [Mood] instances in it (attribute
    assignment, append, clear, ...), and whatever new objects it creates,
    the class attribute and every other object live before keep their
    state. *)
Definition caller_mutation (w : World) (r : loc) (w' : World) : Prop :=
  _mood_cache w' = _mood_cache w
  ∧ (∀ l, l ≠ r → is_Some (list_objs w !! l) →
       list_objs w' !! l = list_objs w !! l)
  ∧ (∀ a, a ∉ the_list w r → is_Some (mood_objs w !! a) →
       mood_objs w' !! a = mood_objs w !! a).

(** Three mutations a caller can perform on what it got. *)

(** [r[i].name = text] *)
Definition set_name (r : loc) (i : nat) (text : string) (w : World) : World :=
  match the_list w r !! i with
  | Some a =>
      set_mood_objs
        (<[a := {| id := id (the_mood w a); name := text;
                   icon := icon (the_mood w a);
                   category := category (the_mood w a);
                   created_at := created_at (the_mood w a);
                   updated_at := updated_at (the_mood w a) |}]>) w
  | None => w
  end.

(** [r.clear()] *)
Definition list_clear (r : loc) (w : World) : World :=
  set_list_objs <[r := []]> w.

(** [r.append(Mood(...))] *)
Definition list_append_new (r : loc) (m : Mood) (w : World) : World :=
  match new_Mood m w with
  | (Return a, w') => set_list_objs <[r := the_list w r ++ [a]]> w'
  | (Raise _, w') => w'
  end.

(** The values of [MoodCategory]. *)
Definition is_category (text : string) : Prop :=
  text = "positive" ∨ text = "negative" ∨ text = "neutral".

#[global] Instance is_category_dec text : Decision (is_category text).
Proof. unfold is_category. apply _. Defined.

(** The cache keys the service is meant to use: the sentinel and the
    category values. *)
Definition key_ok (key : string) : Prop :=
  key = "__all__" ∨ is_category key.

Definition keys_ok (w : World) : Prop :=
  ∀ key, is_Some (_mood_cache w !! key) → key_ok key.

(** The public operations that touch the cache. *)
Inductive Op :=
  | GetAll (self : MoodService)
  | GetByCategory (self : MoodService) (category : string)
  | Invalidate.

Definition op (o : Op) : M World (option loc) :=
  match o with
  | GetAll self => r ← get_all_moods self; mret (Some r)
  | GetByCategory self c => r ← get_moods_by_category self c; mret (Some r)
  | Invalidate => invalidate_mood_cache;; mret None
  end.

Fixpoint ops (os : list Op) (w : World) : World :=
  match os with
  | [] => w
  | o :: os' => ops os' (snd (op o w))
  end.

(** Three rows of the [mood] table, a session that serves them and a
    session whose every statement fails, for the examples. *)
Definition sample_moods : list Mood :=
  [ mkMood 1 "calm" (Some "leaf") "positive" 1700000000 1700000000;
    mkMood 2 "happy" (Some "sun") "positive" 1700000000 1700000500;
    mkMood 3 "sad" None "negative" 1700000000 1700000000 ].

Definition sample_service : MoodService :=
  {| session := λ statement,
       match statement with
       | select_moods => Return sample_moods
       | select_moods_where c =>
           Return (filter (λ m, category m = c) sample_moods)
       end |}.

Definition storage_down : PyExc :=
  mkExc SQLAlchemyError "connection to the database was lost".

Definition failing_service : MoodService :=
  {| session := λ _, Raise storage_down |}.

End MoodService.

(* ===================================================================== *)
(** * [app/models/mood.py]: the field validators *)
(* ===================================================================== *)

Module MoodModel.
Import MoodService.

(** Lines 42-49, [Mood.validate_name]. *)
Definition validate_name (v : string) : Result string :=
  if negb (Str.truthy v) || (String.length (Str.strip v) =? 0)%nat
  then Raise (mkExc ValueError "Mood name cannot be empty")
  else Return (Str.lower (Str.strip v)).

(** Lines 51-60, [Mood.validate_category]; the set is built from the
    members of [MoodCategory], and [sorted] puts its elements in the order
    shown in the message. *)
Definition validate_category (v : string) : Result string :=
  let allowed_categories := value <$> [POSITIVE; NEGATIVE; NEUTRAL] in
  if bool_decide (v ∈ allowed_categories)
  then Return v
  else Raise (mkExc ValueError
                ("Invalid category: " +:+ v
                 +:+ ". Must be one of ['negative', 'neutral', 'positive']")).

(** Lines 110-115, [MoodLog.validate_note]. *)
Definition validate_note (v : option string) : option string :=
  match v with
  | Some text =>
      if Str.truthy text && (String.length (Str.strip text) =? 0)%nat
      then None
      else if Str.truthy text then Some (Str.strip text) else v
  | None => None
  end.

End MoodModel.

(* ===================================================================== *)
(** * [app/services/mood_service.py]: limits, names and lookup by name *)
(* ===================================================================== *)

Module MoodLookup.
Import MoodService.

(** Lines 21-22. *)
Definition DEFAULT_MOOD_PAGE_LIMIT : Z := 50.
Definition MAX_MOOD_PAGE_LIMIT : Z := 100.

(** Lines 79-83. *)
Definition _normalize_limit (limit : Z) : Z :=
  if (limit <=? 0)%Z then DEFAULT_MOOD_PAGE_LIMIT
  else Z.min limit MAX_MOOD_PAGE_LIMIT.

(** Lines 102-113, the [dict] literal in insertion order. *)
Definition mood_aliases : list (string * list string) :=
  [ ("happy", ["joy"; "cheerful"; "glad"; "pleased"]);
    ("sad", ["unhappy"; "down"; "blue"; "melancholy"]);
    ("angry", ["mad"; "furious"; "irritated"; "annoyed"]);
    ("excited", ["thrilled"; "pumped"; "enthusiastic"]);
    ("calm", ["peaceful"; "serene"; "relaxed"; "tranquil"]);
    ("stressed", ["anxious"; "worried"; "overwhelmed"]);
    ("grateful", ["thankful"; "appreciative"]);
    ("focused", ["concentrated"; "attentive"; "mindful"]);
    ("tired", ["exhausted"; "sleepy"; "drained"]);
    ("lonely", ["isolated"; "alone"; "disconnected"]) ].

(** Lines 116-118, the loop over [items]: the mood of the first entry
    that matches, if any. *)
Fixpoint match_alias (normalized : string) (items : list (string * list string))
  : option string :=
  match items with
  | [] => None
  | (mood, aliases) :: rest =>
      if bool_decide (normalized = mood) || bool_decide (normalized ∈ aliases)
      then Some mood
      else match_alias normalized rest
  end.

(** Lines 92-120. *)
Definition _normalize_mood_name (mood_name : string) : Result string :=
  if negb (Str.truthy mood_name)
  then Raise (mkExc MoodNotFoundError "Mood name cannot be empty")
  else
    let normalized := Str.lower (Str.strip mood_name) in
    match match_alias normalized mood_aliases with
    | Some mood => Return mood
    | None => Return normalized
    end.

(** The two statements [find_mood_by_name] builds. *)
Inductive Statement :=
  | select_mood_named (normalized_name : string)
      (* where func.lower(Mood.name) == normalized_name *)
  | select_moods_like (pattern : string).
      (* where func.lower(Mood.name).like(pattern) *)

(** [self.session]: what executing a statement yields.  The world is the
    list of statements executed so far. *)
Record Session := mkSession { rows : Statement → Result (list Mood) }.

Definition session_exec (self : Session) (statement : Statement)
  : M (list Statement) (list Mood) :=
  modify (λ executed, executed ++ [statement]);;
  lift (rows self statement).

(** Lines 161-183.  [.first()] is the first row or [None]; a [Mood]
    instance is truthy. *)
Definition find_mood_by_name (self : Session) (mood_name : string)
  : M (list Statement) (option Mood) :=
  normalized_name ← lift (_normalize_mood_name mood_name);
  found ← session_exec self (select_mood_named normalized_name);
  match head found with
  | Some mood => mret (Some mood)
  | None =>
      moods ← session_exec self
                (select_moods_like ("%" +:+ normalized_name +:+ "%"));
      if (length moods =? 1)%nat then mret (head moods)
      else if (1 <? length moods)%nat then mret (head moods)
      else mret None
  end.

(** Every alias word of the table, and every mood name. *)
Definition alias_words : list string := mood_aliases ≫= snd.
Definition mood_words : list string := fst <$> mood_aliases.

(** A session over a fixed table, for the examples: the exact query
    compares names, the pattern query is answered for one pattern. *)
Definition sample_session : Session :=
  {| rows := λ statement,
       match statement with
       | select_mood_named n =>
           Return (filter (λ m, name m = n) sample_moods)
       | select_moods_like p =>
           if bool_decide (p = "%app%")
           then Return (filter (λ m, name m = "happy") sample_moods)
           else Return []
       end |}.

End MoodLookup.

(* ===================================================================== *)
(** * [get_mood_streak] and the time zone it asks for *)
(* ===================================================================== *)

Module MoodStreak.

(** A [datetime.date] is its proleptic ordinal: day 1 is [date.min],
    day 3652059 is [date.max]. *)
Definition date_max : Z := 3652059.


(** [d - timedelta(days=n)]: [OverflowError] outside the range of dates. *)
Definition date_minus_days (d n : Z) : Result Z :=
  if ((1 <=? d - n) && (d - n <=? date_max))%Z
  then Return (d - n)%Z
  else Raise (mkExc OtherException "date value out of range").

(** The field of [UserSettings] that [get_user_timezone] reads
    ([app/models/user.py] is not among the sources). *)
Record UserSettings := mkSettings { time_zone : option string }.

(** The statements of the two methods, for user [user_id]. *)
Inductive Statement :=
  | select_logged_dates (user_id : Z)
      (* distinct logged_date of the user, latest first *)
  | select_user_settings (user_id : Z).

(** What surrounds the two methods: the session, given by what each
    statement yields, and [app.core.time_utils], which is not among the
    sources: the instant [utc_now()] returns and what
    [local_date_for_user] makes of an instant and a zone name. *)
Record Env := mkEnv {
  logged_dates : Z → Result (list Z);
  user_settings : Z → Result (list UserSettings);
  utc_now : Z;
  local_date_for_user : Z → string → Result Z
}.

(** The world is the list of statements executed so far. *)
Definition exec_logged_dates (env : Env) (user_id : Z)
  : M (list Statement) (list Z) :=
  modify (λ executed, executed ++ [select_logged_dates user_id]);;
  lift (logged_dates env user_id).

Definition exec_user_settings (env : Env) (user_id : Z)
  : M (list Statement) (list UserSettings) :=
  modify (λ executed, executed ++ [select_user_settings user_id]);;
  lift (user_settings env user_id).

(** [app/services/user_service.py], lines 225-242.  The inner computation
    yields the zone the [try] block returns, or [None] when control
    reaches [return "UTC"]. *)
Definition get_user_timezone (env : Env) (user_id : Z)
  : M (list Statement) string :=
  returned ←
    try_except
      (found ← exec_user_settings env user_id;
       match head found with
       | Some settings =>
           match time_zone settings with
           | Some zone => if Str.truthy zone then mret (Some zone)
                          else mret None
           | None => mret None
           end
       | None => mret None
       end)
      (λ e, if is_Exception e then Some (mret None) else None);
  match returned with
  | Some zone => mret zone
  | None => mret "UTC"
  end.

(** Lines 453-459: the loop over [range(1, len(mood_dates))], entered
    with [i] and the dates from index [i] on. *)
Fixpoint current_loop (today i : Z) (rest : list Z) (current_streak : Z)
  : Result Z :=
  match rest with
  | [] => Return current_streak
  | mood_date :: rest' =>
      match date_minus_days today i with
      | Raise e => Raise e
      | Return expected_date =>
          if (mood_date =? expected_date)%Z
          then current_loop today (i + 1) rest' (current_streak + 1)
          else Return current_streak
      end
  end.

(** Lines 462-471: the second loop, entered with the date at index
    [i - 1] and the dates from index [i] on. *)
Fixpoint longest_loop (previous_date : Z) (rest : list Z)
    (temp_streak longest_streak : Z) : Z :=
  match rest with
  | [] => longest_streak
  | current_date :: rest' =>
      if (previous_date - current_date =? 1)%Z
      then longest_loop current_date rest' (temp_streak + 1)
             (Z.max longest_streak (temp_streak + 1))
      else longest_loop current_date rest' 1 longest_streak
  end.

(** Lines 424-477; the result is the [dict], in insertion order. *)
Definition get_mood_streak (env : Env) (user_id : Z)
  : M (list Statement) (list (string * Z)) :=
  mood_dates ← exec_logged_dates env user_id;
  match mood_dates with
  | [] => mret [("current_streak", 0%Z); ("longest_streak", 0%Z)]
  | latest_date :: rest =>
      user_tz ← get_user_timezone env user_id;
      today ← lift (local_date_for_user env (utc_now env) user_tz);
      yesterday ← lift (date_minus_days today 1);
      current_streak ←
        (if (latest_date =? today)%Z || (latest_date =? yesterday)%Z
         then lift (current_loop today 1 rest 1)
         else mret 0%Z);
      let longest_streak := longest_loop latest_date rest 1 1 in
      mret [("current_streak", current_streak);
            ("longest_streak", longest_streak);
            ("total_days_logged", Z.of_nat (length mood_dates))]
  end.


(** A run: each date is the day before the one in front of it. *)
Fixpoint consecutive (dates : list Z) : Prop :=
  match dates with
  | [] => True
  | d :: rest =>
      match rest with
      | [] => True
      | d' :: _ => (d - d' = 1)%Z ∧ consecutive rest
      end
  end.

(** An environment for the examples: user 7 logged on five days, the
    latest being [today]; user 8 logged up to the day before; the zone of
    user 7 is stored, user 8 has no settings row. *)
Definition sample_today : Z := 739000.

Definition sample_env : Env :=
  {| logged_dates := λ user_id,
       if (user_id =? 7)%Z
       then Return [739000; 738999; 738998; 738990; 738989]%Z
       else if (user_id =? 8)%Z
       then Return [738999; 738998; 738997]%Z
       else Return [];
     user_settings := λ user_id,
       if (user_id =? 7)%Z
       then Return [mkSettings (Some "Europe/Paris")]
       else Return [];
     utc_now := 63849600000;
     local_date_for_user := λ _ _, Return sample_today |}.

End MoodStreak.

(* ===================================================================== *)
(** * Counting the jobs of a call sequence *)
(* ===================================================================== *)

Module PoolAccounting.
Import FileProcessing.

(** The submissions of a call sequence whose descriptor passes the
    validation. *)
Fixpoint accepted (cs : list Call) : nat :=
  match cs with
  | [] => 0
  | Submit j :: cs' => (if admissible j then 1 else 0) + accepted cs'
  | _ :: cs' => accepted cs'
  end.

(** The work items waiting in the queue of the executor, if there is one. *)
Definition pending (w : World) : nat :=
  match _processing_executor w with
  | Some executor => length (_work_queue executor)
  | None => 0
  end.

End PoolAccounting.

(* ===================================================================== *)
(** * Properties of the Python layer *)
(* ===================================================================== *)

Ltac monad :=
  unfold mbind, M_bind, mret, M_ret, bind, ret, get, modify, raise, lift,
    raise_if, try_except, try_finally in *.

Example uuid_canonical :
  returns (uuid.UUID "12345678-1234-5678-1234-567812345678") = true.
Proof. reflexivity. Qed.

Example uuid_urn_braces :
  uuid.UUID "urn:uuid:{00000000-0000-0000-0000-0000000000ff}" = Return 255%Z.
Proof. reflexivity. Qed.

(** The constructor leaves the digits to [int], which admits a sign, a
    [0x] prefix, single underscores and surrounding blanks. *)
Example uuid_prefix_0x :
  returns (uuid.UUID "0x_11111111111111111111111111111") = true.
Proof. reflexivity. Qed.

Example uuid_sign :
  uuid.UUID "+00000000000000000000000000000ff" = Return 255%Z.
Proof. reflexivity. Qed.

Example uuid_malformed :
  uuid.UUID "not-a-uuid"
  = Raise (mkExc ValueError "badly formed hexadecimal UUID string").
Proof. reflexivity. Qed.

Example uuid_double_underscore :
  returns (uuid.UUID "1__11111111111111111111111111111") = false.
Proof. reflexivity. Qed.

Example strip_blank : Str.strip "    " = "".
Proof. reflexivity. Qed.

Example lower_mixed : Str.lower "PoSiTiVe" = "positive".
Proof. reflexivity. Qed.

(** [uuid.UUID] raises nothing but [ValueError]. *)
Lemma UUID_raises_ValueError text e :
  uuid.UUID text = Raise e → exc_class e = ValueError.
Proof.
  unfold uuid.UUID.
  repeat (case_match; try discriminate); intros [= <-]; reflexivity.
Qed.

Lemma truthy_empty s : Str.truthy s = false ↔ s = "".
Proof. destruct s; simpl; split; congruence. Qed.

(* ===================================================================== *)
(** * Properties of the file-processing pool *)
(* ===================================================================== *)

Module FileProcessingSpec.
Import FileProcessing.

Lemma malformed_not_admissible j : malformed j ↔ admissible j = false.
Proof.
  unfold malformed, admissible. rewrite <- !truthy_empty.
  destruct (Str.truthy (media_id j)), (Str.truthy (file_path j)),
    (Str.truthy (user_id j)), (well_formed_uuid (media_id j)),
    (well_formed_uuid (user_id j)), (Str.truthy (Str.strip (file_path j)));
    simpl; intuition congruence.
Qed.

Example sample_job_admissible : admissible sample_job = true.
Proof. reflexivity. Qed.

(** Closing the session opened last. *)
Lemma close_last (s : list bool) :
  <[length s := false]> (s ++ [true]) = s ++ [false].
Proof. rewrite insert_app_r_alt by lia. by rewrite Nat.sub_diag. Qed.

(** What [_get_processing_executor] does in each state of the globals. *)
Lemma get_processing_executor_cases w :
  _get_processing_executor w =
  match _processing_executor w, _is_shutting_down w with
  | Some executor, _ => (Return executor, w)
  | None, false =>
      (Return new_executor,
       snd (log_info "File processing thread pool initialized"
              (set_executor (Some new_executor) w)))
  | None, true =>
      (Raise (mkExc RuntimeError
                "Thread pool executor is not available (shutting down)"), w)
  end.
Proof.
  unfold _get_processing_executor. monad.
  destruct (_processing_executor w) eqn:E, (_is_shutting_down w) eqn:F;
    simpl; rewrite ?E; reflexivity.
Qed.

(** ** Admission *)

(** The validation of lines 70-82 stops a malformed descriptor: the
    [ValueError] is logged and raised again, nothing else happens. *)
Lemma validation_stops_malformed j w :
  malformed j →
  ∃ msg,
    process_uploaded_file_async j w
    = (Raise (mkExc ValueError msg),
       {| _processing_executor := _processing_executor w;
          _is_shutting_down := _is_shutting_down w;
          sessions := sessions w;
          log := log w ++ [error (mkExc ValueError msg)] |}).
Proof.
  intros H. unfold malformed, well_formed_uuid in H.
  rewrite <- !truthy_empty in H.
  unfold process_uploaded_file_async. monad.
  destruct (Str.truthy (media_id j)) eqn:E1; simpl; [|eauto].
  destruct (Str.truthy (file_path j)) eqn:E2; simpl; [|eauto].
  destruct (Str.truthy (user_id j)) eqn:E3; simpl; [|eauto].
  destruct (uuid.UUID (media_id j)) as [n1|e1] eqn:E4; simpl.
  2:{ apply UUID_raises_ValueError in E4. unfold isinstance.
      rewrite E4. simpl. eauto. }
  destruct (uuid.UUID (user_id j)) as [n2|e2] eqn:E5; simpl.
  2:{ apply UUID_raises_ValueError in E5. unfold isinstance.
      rewrite E5. simpl. eauto. }
  destruct (Str.truthy (Str.strip (file_path j))) eqn:E6; simpl; [|eauto].
  simpl in H. destruct H as [H|[H|[H|[H|[H|H]]]]]; discriminate.
Qed.



(** An admissible descriptor reaches the executor; what happens then
    depends on the two globals. *)
Lemma admissible_submit_cases j w :
  admissible j = true →
  process_uploaded_file_async j w =
  let unavailable :=
    mkExc RuntimeError
      "Thread pool executor is not available (shutting down)" in
  let submitted :=
    info ("File processing task submitted for media " +:+ media_id j) in
  match _processing_executor w, _is_shutting_down w with
  | None, true =>
      (Raise unavailable,
       {| _processing_executor := None; _is_shutting_down := true;
          sessions := sessions w; log := log w ++ [error unavailable] |})
  | None, false =>
      (Return tt,
       {| _processing_executor := Some (fresh_executor_with j);
          _is_shutting_down := false; sessions := sessions w;
          log := log w ++ [info "File processing thread pool initialized";
                           submitted] |})
  | Some executor, flag =>
      match executor_submit executor j with
      | Return executor' =>
          (Return tt,
           {| _processing_executor := Some executor';
              _is_shutting_down := flag; sessions := sessions w;
              log := log w ++ [submitted] |})
      | Raise e =>
          (Raise e,
           {| _processing_executor := Some executor;
              _is_shutting_down := flag; sessions := sessions w;
              log := log w ++ [error e] |})
      end
  end.
Proof.
  unfold admissible, well_formed_uuid. rewrite !andb_true_iff.
  intros [[[[[H1 H2] H3] H4] H5] H6].
  unfold process_uploaded_file_async.
  unfold mbind, M_bind, bind at 1 2 3 4, try_except, raise_if, lift.
  rewrite H1, H2, H3, H6. cbn -[_get_processing_executor].
  destruct (uuid.UUID (media_id j)); [|discriminate].
  destruct (uuid.UUID (user_id j)); [|discriminate].
  cbn -[_get_processing_executor].
  unfold bind. rewrite get_processing_executor_cases.
  destruct w as [[ex|] [] ss lg]; simpl; try reflexivity.
  all: try (unfold executor_submit; destruct (_shutdown ex); reflexivity).
  by rewrite <- app_assoc.
Qed.

(** ** The worker body *)

Section Worker.

Variable step : Job → Result unit.

(** Whatever the processing step does, and whatever leaves the body, the
    session the body opened is closed when it is left, the sessions of
    other jobs and the pool globals are untouched. *)
Lemma worker_body_frame j w :
  ∃ r lg,
    _process_uploaded_file_sync step j w
    = (r, {| _processing_executor := _processing_executor w;
             _is_shutting_down := _is_shutting_down w;
             sessions := sessions w ++ [false];
             log := log w ++ lg |}).
Proof.
  unfold _process_uploaded_file_sync, Session, Session_close,
    media_service_process_uploaded_file, log_info, log_warning, log_error,
    emit, set_sessions.
  monad. simpl.
  destruct (step j) as [[]|e]; simpl.
  - rewrite close_last. eexists _, [_; _]. rewrite <- app_assoc. reflexivity.
  - destruct (isinstance e MediaNotFoundError); simpl.
    { rewrite close_last. eexists _, [_; _]. rewrite <- app_assoc.
      reflexivity. }
    destruct (is_Exception e); simpl.
    { rewrite close_last. eexists _, [_; _]. rewrite <- app_assoc.
      reflexivity. }
    rewrite close_last. eexists _, [_]. reflexivity.
Qed.


(** The worker goes on: a queue of jobs is worked off to the end whatever
    the individual steps do, one closed session per job. *)
Lemma worker_survives_every_job q : ∀ w,
  ∃ lg,
    run_work_items step q w
    = (Return tt,
       {| _processing_executor := _processing_executor w;
          _is_shutting_down := _is_shutting_down w;
          sessions := sessions w ++ replicate (length q) false;
          log := log w ++ lg |}).
Proof.
  induction q as [|j q IH]; intros w; simpl.
  - exists []. monad. rewrite !app_nil_r. by destruct w.
  - monad. unfold work_item_run.
    destruct (worker_body_frame j w) as (r & lg & ->). simpl.
    edestruct IH as (lg' & ->). simpl.
    exists (lg ++ lg'). rewrite <- !app_assoc. reflexivity.
Qed.

(** ** Shutdown *)

(** [_shutdown_executor] always completes, and leaves the executor slot
    empty with the flag cleared. *)
Lemma shutdown_executor_completes w :
  _is_shutting_down w = false →
  ∃ w', _shutdown_executor step w = (Return tt, w')
        ∧ pool w' = (None, false).
Proof.
  intros Hf. unfold _shutdown_executor, pool. monad. rewrite Hf.
  destruct (_processing_executor w) as [ex|] eqn:E; simpl.
  - unfold executor_shutdown, log_info, emit. monad. simpl.
    edestruct worker_survives_every_job as (lg & ->). simpl. eauto.
  - eexists. split; [reflexivity|]. by rewrite E, Hf.
Qed.

(** C8. With the executor absent, [shutdown_processing] returns normally,
    for either value of [wait]; it writes its one log line and leaves
    the executor slot, the flag and the sessions as they were. *)
Theorem shutdown_again_is_noop (wait : bool) (w : World) :
  _processing_executor w = None →
  ∃ line,
    shutdown_processing step wait w
    = (Return tt,
       {| _processing_executor := _processing_executor w;
          _is_shutting_down := _is_shutting_down w;
          sessions := sessions w;
          log := log w ++ [info line] |}).
Proof.
  destruct w as [ex flag ss lg]. simpl. intros ->.
  unfold shutdown_processing, _shutdown_executor, log_info, emit.
  monad. destruct wait; simpl; eexists; reflexivity.
Qed.

(** ** Status *)

(** C9. Called with the executor absent and the flag clear,
    [get_processing_status] returns the status of a pool it has just
    created: afterwards the executor slot holds a new four-worker
    executor.  In particular the first call of a process may be a status
    query, and the pool is then running though no job was submitted. *)
Theorem status_creates_pool (w : World) :
  _processing_executor w = None → _is_shutting_down w = false →
  ∃ w',
    get_processing_status w
    = (Return [("is_shutting_down", VBool false); ("max_workers", VInt 4);
               ("active_threads", VInt 0); ("pending_tasks", VInt 0);
               ("shutdown", VBool false)], w')
    ∧ pool w' = (Some new_executor, false)
    ∧ sessions w' = sessions w.
Proof.
  destruct w as [ex flag ss lg]. simpl. intros -> ->.
  eexists. split; [reflexivity|]. split; reflexivity.
Qed.

(** ** Call sequences *)

Lemma submit_keeps_flag j w :
  _is_shutting_down (snd (process_uploaded_file_async j w))
  = _is_shutting_down w.
Proof.
  destruct (admissible j) eqn:Hj.
  - rewrite admissible_submit_cases by done.
    destruct (_processing_executor w) as [ex|], (_is_shutting_down w);
      simpl; try reflexivity; by destruct (executor_submit ex j).
  - apply malformed_not_admissible in Hj.
    by destruct (validation_stops_malformed j w Hj) as [msg ->].
Qed.

Lemma status_keeps_flag w :
  _is_shutting_down (snd (get_processing_status w)) = _is_shutting_down w.
Proof. by destruct w as [[ex|] [] ss lg]. Qed.

Lemma worker_step_keeps_flag w :
  _is_shutting_down (snd (worker_step step w)) = _is_shutting_down w.
Proof.
  unfold worker_step. monad.
  destruct (_processing_executor w) as [ex|]; [|reflexivity].
  destruct (_work_queue ex) as [|j q]; [reflexivity|]. simpl.
  unfold work_item_run.
  edestruct worker_body_frame as (r & lg & ->). reflexivity.
Qed.

(** Between two calls the flag is clear. *)
Lemma call_keeps_flag_clear c w :
  _is_shutting_down w = false →
  _is_shutting_down (snd (call step c w)) = false.
Proof.
  intros Hf. destruct c as [j| |wait|]; unfold call; monad.
  - pose proof (submit_keeps_flag j w) as H.
    destruct (process_uploaded_file_async j w) as [[]?]; simpl in *;
      congruence.
  - pose proof (status_keeps_flag w) as H.
    destruct (get_processing_status w) as [[]?]; simpl in *; congruence.
  - unfold shutdown_processing. monad.
    destruct (shutdown_executor_completes w Hf) as (w' & -> & Hp).
    injection Hp as _ Hp. unfold log_info, emit. monad.
    by destruct wait.
  - pose proof (worker_step_keeps_flag w) as H.
    destruct (worker_step step w) as [[]?]; simpl in *; congruence.
Qed.

Lemma calls_keep_flag_clear cs : ∀ w,
  _is_shutting_down w = false → _is_shutting_down (calls step cs w) = false.
Proof.
  induction cs as [|c cs IH]; intros w Hf; simpl; [done|].
  apply IH. by apply call_keeps_flag_clear.
Qed.

Lemma calls_app cs1 cs2 w :
  calls step (cs1 ++ cs2) w = calls step cs2 (calls step cs1 w).
Proof. revert w. induction cs1 as [|c cs1 IH]; intros w; simpl; auto. Qed.

(** A completed shutdown, after any sequence of calls, leaves the two
    globals exactly as they are at import time. *)
Lemma shutdown_returns_to_uninitialized cs wait :
  pool (calls step (cs ++ [Shutdown wait]) initial) = (None, false).
Proof.
  rewrite calls_app. simpl. unfold shutdown_processing. monad.
  destruct (shutdown_executor_completes (calls step cs initial))
    as (w' & -> & Hp).
  { by apply calls_keep_flag_clear. }
  unfold log_info, emit. monad. by destruct wait.
Qed.

(** Every state reached by a sequence of calls is quiescent. *)
Lemma call_keeps_quiescent c w : quiescent w → quiescent (snd (call step c w)).
Proof.
  intros [Hf Hex]. split; [by apply call_keeps_flag_clear|].
  destruct c as [j| |wait|]; unfold call; monad.
  - destruct (admissible j) eqn:Hj.
    + rewrite admissible_submit_cases, Hf by done.
      destruct (_processing_executor w) as [ex|] eqn:E; simpl.
      * unfold executor_submit. rewrite (Hex ex eq_refl). simpl.
        by intros ? [= <-].
      * by intros ? [= <-].
    + apply malformed_not_admissible in Hj.
      destruct (validation_stops_malformed j w Hj) as [msg ->]. exact Hex.
  - destruct w as [[ex|] flag ss lg]; simpl in *; subst flag; simpl.
    + exact Hex.
    + by intros ? [= <-].
  - unfold shutdown_processing. monad.
    destruct (shutdown_executor_completes w Hf) as (w' & -> & Hp).
    injection Hp as He _. unfold log_info, emit. monad.
    destruct wait; simpl; rewrite He; discriminate.
  - unfold worker_step. monad.
    destruct (_processing_executor w) as [ex|] eqn:E; simpl;
      [|by rewrite E].
    destruct (_work_queue ex) as [|j q]; simpl; [by rewrite E|].
    unfold work_item_run.
    edestruct worker_body_frame as (r & lg & ->). simpl.
    intros ? [= <-]. simpl. by apply Hex.
Qed.

Lemma calls_reach_quiescent cs : quiescent (calls step cs initial).
Proof.
  assert (H : ∀ w, quiescent w → quiescent (calls step cs w)).
  { induction cs as [|c cs IH]; intros w Hw; simpl; [done|].
    apply IH. by apply call_keeps_quiescent. }
  apply H. split; [reflexivity|]. intros ex. discriminate.
Qed.

(** Hence, between calls, a valid descriptor is never refused: whatever
    was called before, shutdowns included, the submission returns and the
    job is at the end of the queue. *)
Lemma valid_submit_is_never_refused cs j :
  admissible j = true →
  ∃ w' executor,
    process_uploaded_file_async j (calls step cs initial) = (Return tt, w')
    ∧ _processing_executor w' = Some executor
    ∧ last (_work_queue executor) = Some j.
Proof.
  intros Hj. destruct (calls_reach_quiescent cs) as [Hf Hex].
  rewrite admissible_submit_cases, Hf by done.
  destruct (_processing_executor (calls step cs initial)) as [ex|] eqn:E;
    simpl.
  - unfold executor_submit. rewrite (Hex ex eq_refl). simpl.
    eexists _, _. split; [reflexivity|]. split; [reflexivity|].
    simpl. apply last_snoc.
  - eexists _, _. split; [reflexivity|]. split; reflexivity.
Qed.

(** C1, amended. After any sequence of calls ended by a completed
    shutdown, the pool is back in the uninitialized state (executor
    absent, flag clear), and a later submission of a valid descriptor is
    accepted: it creates a new four-worker executor and enqueues the job.
    The pool-unavailable error is what a valid submission meets while the
    executor is absent and the flag is set. *)
Theorem submit_after_shutdown_restarts_pool
    (cs : list Call) (wait : bool) (j : Job) :
  admissible j = true →
  let w := calls step (cs ++ [Shutdown wait]) initial in
  pool w = (None, false)
  ∧ (∃ w', process_uploaded_file_async j w = (Return tt, w')
           ∧ pool w' = (Some (fresh_executor_with j), false))
  ∧ (∀ u, pool u = (None, true) →
       ∃ u', process_uploaded_file_async j u
             = (Raise (mkExc RuntimeError
                  "Thread pool executor is not available (shutting down)"),
                u')
             ∧ pool u' = pool u).
Proof.
  intros Hj w.
  pose proof (shutdown_returns_to_uninitialized cs wait) as Hp.
  fold w in Hp. split; [exact Hp|]. injection Hp as He Hf. split.
  - rewrite admissible_submit_cases, He, Hf by done.
    eexists. split; reflexivity.
  - intros u Hu. injection Hu as Hue Huf.
    rewrite admissible_submit_cases, Hue, Huf by done.
    eexists. split; [reflexivity|]. unfold pool. by rewrite Hue, Huf.
Qed.

End Worker.


(** What the log holds after that job: the fault, between the start line
    and nothing else. *)
Example faulty_job_is_logged :
  snd (_process_uploaded_file_sync step_faulty sample_job initial)
  = {| _processing_executor := None; _is_shutting_down := false;
       sessions := [false];
       log := [info ("Starting file processing for media "
                     +:+ media_id sample_job);
               error (mkExc OtherException "cannot identify image file")] |}.
Proof. reflexivity. Qed.

(** An exit signal that is no [Exception] passes the handlers; the session
    is closed all the same. *)
Example exit_signal_closes_session :
  _process_uploaded_file_sync (λ _, Raise (mkExc SystemExit "")) sample_job
    initial
  = (Raise (mkExc SystemExit ""),
     {| _processing_executor := None; _is_shutting_down := false;
        sessions := [false];
        log := [info ("Starting file processing for media "
                      +:+ media_id sample_job)] |}).
Proof. reflexivity. Qed.

(** C8 right after a completed shutdown. *)
Lemma shutdown_again_is_noop_witness :
  let w := calls step_ok [Submit sample_job; Shutdown true] initial in
  _processing_executor w = None
  ∧ ∃ line, shutdown_processing step_ok true w
            = (Return tt,
               {| _processing_executor := _processing_executor w;
                  _is_shutting_down := _is_shutting_down w;
                  sessions := sessions w;
                  log := log w ++ [info line] |}).
Proof.
  split; [reflexivity|].
  exact (shutdown_again_is_noop step_ok true
           (calls step_ok [Submit sample_job; Shutdown true] initial)
           eq_refl).
Defined.

(** C9 at import time: the first call of the process is a status query. *)
Lemma status_creates_pool_witness :
  _processing_executor initial = None ∧ _is_shutting_down initial = false
  ∧ ∃ w', get_processing_status initial
          = (Return [("is_shutting_down", VBool false);
                     ("max_workers", VInt 4); ("active_threads", VInt 0);
                     ("pending_tasks", VInt 0); ("shutdown", VBool false)],
             w')
          ∧ pool w' = (Some new_executor, false)
          ∧ sessions w' = sessions initial.
Proof.
  split; [reflexivity|]. split; [reflexivity|].
  exact (status_creates_pool initial eq_refl eq_refl).
Defined.

(** C1 as stated fails: a job is submitted, the pool is shut down with
    [wait=True], and the same valid descriptor is submitted again.  The
    shutdown has completed (the executor is absent), yet the second
    submission returns normally and the job sits in the queue of a new
    executor. *)
Lemma submit_after_shutdown_is_accepted :
  let w := calls step_ok [Submit sample_job; Shutdown true] initial in
  admissible sample_job = true
  ∧ pool w = (None, false)
  ∧ fst (process_uploaded_file_async sample_job w) = Return tt
  ∧ _processing_executor (snd (process_uploaded_file_async sample_job w))
    = Some (fresh_executor_with sample_job).
Proof. repeat split; reflexivity. Qed.

(** The amended C1 after a submission, a worker step and a shutdown. *)
Lemma submit_after_shutdown_restarts_pool_witness :
  admissible sample_job = true
  ∧ let w := calls step_faulty
               ([Submit sample_job; Worker; Status] ++ [Shutdown true])
               initial in
    pool w = (None, false)
    ∧ (∃ w', process_uploaded_file_async sample_job w = (Return tt, w')
             ∧ pool w' = (Some (fresh_executor_with sample_job), false))
    ∧ (∀ u, pool u = (None, true) →
         ∃ u', process_uploaded_file_async sample_job u
               = (Raise (mkExc RuntimeError
                    "Thread pool executor is not available (shutting down)"),
                  u')
               ∧ pool u' = pool u).
Proof.
  split; [reflexivity|].
  exact (submit_after_shutdown_restarts_pool step_faulty
           [Submit sample_job; Worker; Status] true sample_job eq_refl).
Defined.

End FileProcessingSpec.

(* ===================================================================== *)
(** * Properties of the mood cache *)
(* ===================================================================== *)

Module MoodServiceSpec.
Import MoodService.

(** ** The object store *)

Lemma mood_eta m :
  {| id := id m; name := name m; icon := icon m; category := category m;
     created_at := created_at m; updated_at := updated_at m |} = m.
Proof. by destruct m. Qed.

Lemma the_mood_lookup w a m : mood_objs w !! a = Some m → the_mood w a = m.
Proof. intros H. unfold the_mood. by apply lookup_total_correct. Qed.

Lemma the_mood_agree w w' (items : list loc) :
  mood_objs w ⊆ mood_objs w' →
  Forall (λ a, is_Some (mood_objs w !! a)) items →
  the_mood w' <$> items = the_mood w <$> items.
Proof.
  intros Hsub Hlive. apply list_fmap_ext. intros i a Hi.
  assert (is_Some (mood_objs w !! a)) as [m Hm].
  { eapply Forall_lookup_1 in Hlive; eauto. }
  rewrite (the_mood_lookup w a m Hm).
  apply the_mood_lookup. by eapply lookup_weaken.
Qed.

Lemma new_Mood_spec m w :
  new_Mood m w
  = (Return (fresh (dom (mood_objs w))),
     set_mood_objs <[fresh (dom (mood_objs w)) := m]> w).
Proof. reflexivity. Qed.

Lemma fresh_mood_unused w : mood_objs w !! fresh (dom (mood_objs w)) = None.
Proof. apply not_elem_of_dom, is_fresh. Qed.

Lemma fresh_list_unused w : list_objs w !! fresh (dom (list_objs w)) = None.
Proof. apply not_elem_of_dom, is_fresh. Qed.

(** What the comprehension does. *)
Lemma copy_moods_spec items : ∀ w,
  ∃ cs w',
    copy_moods items w = (Return cs, w')
    ∧ list_objs w' = list_objs w
    ∧ _mood_cache w' = _mood_cache w
    ∧ executed w' = executed w
    ∧ mood_objs w ⊆ mood_objs w'
    ∧ Forall (λ c, mood_objs w !! c = None) cs
    ∧ Forall (λ c, is_Some (mood_objs w' !! c)) cs
    ∧ (Forall (λ a, is_Some (mood_objs w !! a)) items →
       the_mood w' <$> cs = the_mood w <$> items).
Proof.
  induction items as [|mood rest IH]; intros w.
  - exists [], w. simpl. repeat split; auto.
  - simpl. monad. simpl. rewrite mood_eta.
    set (a := fresh (dom (mood_objs w))).
    set (w1 := set_mood_objs <[a := the_mood w mood]> w).
    destruct (IH w1) as (cs & w' & -> & Hl & Hc & He & Hsub & Hfresh & Hlive & Hval).
    assert (Ha : mood_objs w !! a = None) by apply fresh_mood_unused.
    assert (Hsub1 : mood_objs w ⊆ mood_objs w1).
    { unfold w1. simpl. by apply insert_subseteq. }
    exists (a :: cs), w'. repeat split; auto.
    + by etrans.
    + constructor; [done|].
      eapply Forall_impl; [exact Hfresh|]. intros c Hcn. cbv beta in Hcn.
      destruct (mood_objs w !! c) eqn:E; [|done].
      eapply lookup_weaken in E; [|exact Hsub1]. by rewrite E in Hcn.
    + constructor; [|done].
      exists (the_mood w mood). eapply lookup_weaken; [|exact Hsub].
      unfold w1. simpl. apply lookup_insert_eq.
    + intros Hitems. apply Forall_cons in Hitems as [Hm Hrest].
      rewrite !fmap_cons. f_equal.
      * apply the_mood_lookup. eapply lookup_weaken; [|exact Hsub].
        unfold w1. simpl. apply lookup_insert_eq.
      * rewrite Hval.
        -- by apply the_mood_agree.
        -- eapply Forall_impl; [exact Hrest|]. intros c [m Hcm].
           exists m. by eapply lookup_weaken.
Qed.

Lemma get_cached_miss key w :
  _mood_cache w !! key = None → _get_cached_moods key w = (Return None, w).
Proof. intros H. unfold _get_cached_moods. monad. by rewrite H. Qed.

Lemma get_cached_hit key w l :
  _mood_cache w !! key = Some l →
  let r := fresh (dom (list_objs w)) in
  ∃ cs w',
    _get_cached_moods key w = (Return (Some r), w')
    ∧ list_objs w' = <[r := cs]> (list_objs w)
    ∧ _mood_cache w' = _mood_cache w
    ∧ executed w' = executed w
    ∧ mood_objs w ⊆ mood_objs w'
    ∧ Forall (λ c, mood_objs w !! c = None) cs
    ∧ Forall (λ c, is_Some (mood_objs w' !! c)) cs
    ∧ (Forall (λ a, is_Some (mood_objs w !! a)) (the_list w l) →
       view w' r = view w l).
Proof.
  intros H r. unfold _get_cached_moods. monad. rewrite H.
  destruct (copy_moods_spec (the_list w l) w)
    as (cs & w1 & -> & Hl & Hc & He & Hsub & Hfresh & Hlive & Hval).
  unfold new_list. monad. simpl. rewrite Hl. fold r.
  exists cs. eexists. split; [reflexivity|]. simpl. rewrite Hl.
  repeat split; auto.
  intros Hitems. unfold view, the_list at 1. simpl.
  rewrite lookup_insert_eq. simpl. rewrite <- Hval by done.
  reflexivity.
Qed.

Lemma new_Moods_spec rows : ∀ w,
  ∃ items w',
    new_Moods rows w = (Return items, w')
    ∧ list_objs w' = list_objs w
    ∧ _mood_cache w' = _mood_cache w
    ∧ executed w' = executed w
    ∧ mood_objs w ⊆ mood_objs w'
    ∧ Forall (λ a, is_Some (mood_objs w' !! a)) items
    ∧ the_mood w' <$> items = rows.
Proof.
  induction rows as [|m rest IH]; intros w.
  - exists [], w. simpl. repeat split; auto.
  - simpl. monad. simpl.
    set (a := fresh (dom (mood_objs w))).
    set (w1 := set_mood_objs <[a := m]> w).
    destruct (IH w1) as (items & w' & -> & Hl & Hc & He & Hsub & Hlive & Hval).
    assert (Ha : mood_objs w !! a = None) by apply fresh_mood_unused.
    assert (Ha' : mood_objs w' !! a = Some m).
    { eapply lookup_weaken; [|exact Hsub]. unfold w1. simpl.
      apply lookup_insert_eq. }
    exists (a :: items), w'. repeat split; auto.
    + etrans; [|exact Hsub]. unfold w1. simpl. by apply insert_subseteq.
    + rewrite fmap_cons, Hval. f_equal. by apply the_mood_lookup.
Qed.

Lemma store_cache_spec key moods w :
  let l := fresh (dom (list_objs w)) in
  ∃ cs w',
    _store_cache key moods w = (Return tt, w')
    ∧ list_objs w' = <[l := cs]> (list_objs w)
    ∧ _mood_cache w' = <[key := l]> (_mood_cache w)
    ∧ executed w' = executed w
    ∧ mood_objs w ⊆ mood_objs w'
    ∧ Forall (λ c, mood_objs w !! c = None) cs
    ∧ Forall (λ c, is_Some (mood_objs w' !! c)) cs
    ∧ (Forall (λ a, is_Some (mood_objs w !! a)) (the_list w moods) →
       view w' l = view w moods).
Proof.
  intros l. unfold _store_cache. monad.
  destruct (copy_moods_spec (the_list w moods) w)
    as (cs & w1 & -> & Hl & Hc & He & Hsub & Hfresh & Hlive & Hval).
  unfold new_list. monad. simpl. rewrite Hl. fold l.
  exists cs. eexists. split; [reflexivity|]. simpl. rewrite Hl, Hc.
  repeat split; auto.
  intros Hitems. unfold view, the_list at 1. simpl.
  rewrite lookup_insert_eq. simpl. rewrite <- Hval by done.
  reflexivity.
Qed.

Lemma exec_list_raises self statement w e :
  session self statement = Raise e →
  exec_list self statement w
  = (Raise e, set_executed (λ l, l ++ [statement]) w).
Proof. intros H. unfold exec_list. monad. by rewrite H. Qed.

Lemma exec_list_returns self statement w rows :
  session self statement = Return rows →
  let l := fresh (dom (list_objs w)) in
  ∃ items w',
    exec_list self statement w = (Return l, w')
    ∧ list_objs w' = <[l := items]> (list_objs w)
    ∧ _mood_cache w' = _mood_cache w
    ∧ executed w' = executed w ++ [statement]
    ∧ mood_objs w ⊆ mood_objs w'
    ∧ Forall (λ a, is_Some (mood_objs w' !! a)) items
    ∧ view w' l = rows.
Proof.
  intros H l. unfold exec_list. monad. rewrite H. simpl.
  destruct (new_Moods_spec rows (set_executed (λ l, l ++ [statement]) w))
    as (items & w1 & -> & Hl & Hc & He & Hsub & Hlive & Hval).
  unfold new_list. monad. simpl. rewrite Hl. simpl. fold l.
  exists items. eexists. split; [reflexivity|]. simpl. rewrite Hl.
  repeat split; auto.
  unfold view, the_list. simpl. rewrite lookup_insert_eq. simpl. done.
Qed.

Lemma normalize_valid category w :
  is_category (Str.lower category) →
  _normalize_category category w = (Return (Str.lower category), w).
Proof.
  intros H. unfold _normalize_category, MoodCategory_of. monad.
  destruct H as [-> | [-> | ->]]; reflexivity.
Qed.

Lemma normalize_invalid category w :
  ¬ is_category (Str.lower category) →
  _normalize_category category w
  = (Raise (mkExc MoodNotFoundError
              ("Invalid mood category '" +:+ category +:+ "'")), w).
Proof.
  intros H. unfold _normalize_category, MoodCategory_of, is_category in *.
  monad. repeat case_bool_decide; try reflexivity; exfalso; apply H; auto.
Qed.

Lemma category_truthy text : is_category text → Str.truthy text = true.
Proof. by intros [-> | [-> | ->]]. Qed.

Lemma cache_key_category text :
  is_category text → _cache_key (Some text) = text.
Proof. intros H. unfold _cache_key. by rewrite category_truthy. Qed.

(** [get_moods_by_category] on an input that normalizes: the body of the
    method at the normalized category. *)
Lemma by_category_valid self category w :
  is_category (Str.lower category) →
  get_moods_by_category self category w
  = (cached ← _get_cached_moods (Str.lower category);
     match cached with
     | Some cached => mret cached
     | None =>
         moods ← exec_list self (select_moods_where (Str.lower category));
         _store_cache (Str.lower category) moods;;
         mret moods
     end) w.
Proof.
  intros H. unfold get_moods_by_category.
  unfold mbind at 1, M_bind at 1, bind at 1.
  rewrite normalize_valid by done. by rewrite cache_key_category.
Qed.

Lemma by_category_invalid self category w :
  ¬ is_category (Str.lower category) →
  get_moods_by_category self category w
  = (Raise (mkExc MoodNotFoundError
              ("Invalid mood category '" +:+ category +:+ "'")), w).
Proof.
  intros H. unfold get_moods_by_category.
  unfold mbind at 1, M_bind at 1, bind at 1.
  by rewrite normalize_invalid.
Qed.

(** The lookup-or-load body shared by the two queries, at key [key] and
    statement [statement]: what it does to the cache. *)
Lemma lookup_or_load_cache self key statement w r w' :
  (cached ← _get_cached_moods key;
   match cached with
   | Some cached => mret cached
   | None =>
       moods ← exec_list self statement;
       _store_cache key moods;;
       mret moods
   end) w = (r, w') →
  _mood_cache w' = _mood_cache w
  ∨ (_mood_cache w !! key = None
     ∧ ∃ l, _mood_cache w' = <[key := l]> (_mood_cache w)).
Proof.
  unfold mbind at 1, M_bind at 1, bind at 1.
  destruct (_mood_cache w !! key) as [l|] eqn:E.
  - destruct (get_cached_hit key w l E) as (cs & w1 & -> & _ & Hc & _).
    intros [= _ <-]. left. exact Hc.
  - rewrite get_cached_miss by done.
    unfold mbind at 1, M_bind at 1, bind at 1.
    destruct (session self statement) as [rows|e] eqn:Es.
    + destruct (exec_list_returns self statement w rows Es)
        as (items & w1 & -> & _ & Hc1 & _).
      monad.
      destruct (store_cache_spec key (fresh (dom (list_objs w))) w1)
        as (cs & w2 & -> & _ & Hc2 & _).
      intros [= _ <-].
      right. split; [done|]. eexists. rewrite Hc2, Hc1. reflexivity.
    + rewrite (exec_list_raises _ _ _ e) by done. intros [= _ <-]. by left.
Qed.

(** ** Invalidation *)

(** C6. [invalidate_mood_cache] is idempotent: run on the state it has just
    produced it yields that state again.  It returns normally and leaves
    the cache empty, so afterwards [_get_cached_moods] returns [None] for
    every key, the previously populated ones included, and changes
    nothing. *)
Theorem invalidate_idempotent (w : World) :
  invalidate_mood_cache (snd (invalidate_mood_cache w))
  = invalidate_mood_cache w
  ∧ fst (invalidate_mood_cache w) = Return tt
  ∧ _mood_cache (snd (invalidate_mood_cache w)) = ∅
  ∧ ∀ key, _get_cached_moods key (snd (invalidate_mood_cache w))
           = (Return None, snd (invalidate_mood_cache w)).
Proof.
  do 3 (split; [reflexivity|]). intros key. by apply get_cached_miss.
Qed.

(** ** Storage errors *)

(** C5. On a cache miss, when the session raises [e] while executing the
    statement, [get_all_moods] and [get_moods_by_category] (on an input
    that normalizes to a category) raise that same [e]; the statement is
    the only trace of the call: the cache and the object stores are as
    before, so nothing was stored under the requested key. *)
Theorem storage_error_propagates (self : MoodService) (w : World) (e : PyExc) :
  (_mood_cache w !! "__all__" = None →
   session self select_moods = Raise e →
   get_all_moods self w
   = (Raise e,
      {| mood_objs := mood_objs w; list_objs := list_objs w;
         _mood_cache := _mood_cache w;
         executed := executed w ++ [select_moods] |}))
  ∧ (∀ category,
       is_category (Str.lower category) →
       _mood_cache w !! Str.lower category = None →
       session self (select_moods_where (Str.lower category)) = Raise e →
       get_moods_by_category self category w
       = (Raise e,
          {| mood_objs := mood_objs w; list_objs := list_objs w;
             _mood_cache := _mood_cache w;
             executed := executed w
                         ++ [select_moods_where (Str.lower category)] |})).
Proof.
  split.
  - intros Hmiss Herr. unfold get_all_moods.
    unfold mbind at 1, M_bind at 1, bind at 1. simpl _cache_key.
    rewrite get_cached_miss by done.
    unfold mbind at 1, M_bind at 1, bind at 1.
    by rewrite (exec_list_raises _ _ _ e).
  - intros category Hcat Hmiss Herr.
    rewrite by_category_valid by done.
    unfold mbind at 1, M_bind at 1, bind at 1.
    rewrite get_cached_miss by done.
    unfold mbind at 1, M_bind at 1, bind at 1.
    by rewrite (exec_list_raises _ _ _ e).
Qed.

Lemma lookup_or_load_then_hit self key statement w r w1 :
  (cached ← _get_cached_moods key;
   match cached with
   | Some cached => mret cached
   | None =>
       moods ← exec_list self statement;
       _store_cache key moods;;
       mret moods
   end) w = (Return r, w1) →
  is_Some (_mood_cache w1 !! key).
Proof.
  intros H. pose proof H as Hc. apply lookup_or_load_cache in Hc.
  destruct Hc as [Hc | (_ & l & Hc)]; rewrite Hc.
  - destruct (_mood_cache w !! key) eqn:E; [done|]. exfalso.
    revert H. unfold mbind at 1, M_bind at 1, bind at 1.
    rewrite get_cached_miss by done.
    unfold mbind at 1, M_bind at 1, bind at 1.
    destruct (session self statement) as [rows|e] eqn:Es.
    + destruct (exec_list_returns self statement w rows Es)
        as (items & w2 & -> & _ & Hc1 & _).
      monad.
      destruct (store_cache_spec key (fresh (dom (list_objs w))) w2)
        as (cs & w3 & -> & _ & Hc2 & _).
      intros [= _ <-]. rewrite Hc2, Hc1 in Hc.
      apply (f_equal (λ m, m !! key)) in Hc.
      rewrite lookup_insert_eq in Hc. congruence.
    + by rewrite (exec_list_raises _ _ _ e).
  - rewrite lookup_insert_eq. eauto.
Qed.

(** ** Category keys *)

(** C7. Two inputs with the same lower-case form, that form being a
    category value, are the same call to [get_moods_by_category]: same
    outcome and same final state from every state, so they read and write
    the same cache slot.  The call leaves every slot other than the one of
    the lower-case form as it was, and once it has returned, a call with
    the other spelling (through any session) is served from the cache
    without executing a statement.  An input whose lower-case form is not
    a category value raises [MoodNotFoundError] and leaves the whole
    state, hence every cache slot, untouched. *)
Theorem category_key_is_normalized (self : MoodService) (w : World) :
  (∀ c1 c2,
     Str.lower c1 = Str.lower c2 → is_category (Str.lower c1) →
     get_moods_by_category self c1 w = get_moods_by_category self c2 w
     ∧ ∀ r w1, get_moods_by_category self c1 w = (r, w1) →
         (∀ key, key ≠ Str.lower c1 →
                 _mood_cache w1 !! key = _mood_cache w !! key)
         ∧ (returns r = true →
            ∀ self', ∃ r' w2,
              get_moods_by_category self' c2 w1 = (Return r', w2)
              ∧ executed w2 = executed w1))
  ∧ (∀ c, ¬ is_category (Str.lower c) →
       get_moods_by_category self c w
       = (Raise (mkExc MoodNotFoundError
                   ("Invalid mood category '" +:+ c +:+ "'")), w)).
Proof.
  split.
  - intros c1 c2 Heq Hcat. split.
    { rewrite !by_category_valid by congruence. by rewrite Heq. }
    intros r w1. rewrite by_category_valid by done. intros H. split.
    + intros key Hne. apply lookup_or_load_cache in H.
      destruct H as [-> | (_ & l & ->)]; [done|].
      by rewrite lookup_insert_ne.
    + intros Hr self'. destruct r as [r|]; [|done].
      rewrite by_category_valid by congruence. rewrite <- Heq.
      apply lookup_or_load_then_hit in H as [l Hl].
      unfold mbind at 1, M_bind at 1, bind at 1.
      destruct (get_cached_hit _ w1 l Hl) as (cs & w2 & -> & _ & _ & He & _).
      eexists _, _. split; [reflexivity|]. exact He.
  - intros c Hc. by apply by_category_invalid.
Qed.

Lemma keys_ok_insert w w' key l :
  key_ok key → keys_ok w → _mood_cache w' = <[key := l]> (_mood_cache w) →
  keys_ok w'.
Proof.
  intros Hk Hw Hc k. rewrite Hc. destruct (decide (key = k)) as [<-|Hne].
  - done.
  - rewrite lookup_insert_ne by done. apply Hw.
Qed.

Lemma keys_ok_same w w' :
  keys_ok w → _mood_cache w' = _mood_cache w → keys_ok w'.
Proof. intros Hw Hc k. rewrite Hc. apply Hw. Qed.

Lemma op_keeps_keys_ok o w : keys_ok w → keys_ok (snd (op o w)).
Proof.
  intros Hw. destruct o as [self|self category|]; unfold op.
  - unfold mbind, M_bind, bind.
    destruct (get_all_moods self w) as [r w'] eqn:E.
    assert (keys_ok w') as Hw'.
    { apply lookup_or_load_cache in E.
      destruct E as [E | (_ & l & E)].
      - by eapply keys_ok_same.
      - eapply keys_ok_insert; [|exact Hw|exact E]. by left. }
    by destruct r.
  - unfold mbind, M_bind, bind.
    destruct (get_moods_by_category self category w) as [r w'] eqn:E.
    assert (keys_ok w') as Hw'.
    { destruct (decide (is_category (Str.lower category))) as [Hc|Hc].
      - rewrite by_category_valid in E by done.
        apply lookup_or_load_cache in E.
        destruct E as [E | (_ & l & E)].
        + by eapply keys_ok_same.
        + eapply keys_ok_insert; [|exact Hw|exact E]. by right.
      - rewrite by_category_invalid in E by done. by injection E as _ <-. }
    by destruct r.
  - intros k [l Hl]. simpl in Hl. by rewrite lookup_empty in Hl.
Qed.

Lemma keys_ok_empty : keys_ok empty_world.
Proof. intros k [l Hl]. simpl in Hl. by rewrite lookup_empty in Hl. Qed.

(** C10. After any sequence of [get_all_moods], [get_moods_by_category] and
    [invalidate_mood_cache] calls from a state whose cache keys are among
    ["__all__"], ["positive"], ["negative"], ["neutral"], the keys are
    still among these four.  The sentinel is not a category value, and
    the key derived from a successfully normalized category is that
    category value, different from the sentinel. *)
Theorem cache_keys_stay_in_closed_set (os : list Op) (w : World) :
  keys_ok w →
  keys_ok (ops os w)
  ∧ ¬ is_category (_cache_key None)
  ∧ ∀ category u normalized u',
      _normalize_category category u = (Return normalized, u') →
      is_category normalized
      ∧ _cache_key (Some normalized) = normalized
      ∧ _cache_key (Some normalized) ≠ _cache_key None.
Proof.
  intros Hw. split; [|split].
  - revert w Hw. induction os as [|o os IH]; intros w Hw; simpl; [done|].
    apply IH. by apply op_keeps_keys_ok.
  - simpl. intros [H | [H | H]]; discriminate.
  - intros category u normalized u' H.
    destruct (decide (is_category (Str.lower category))) as [Hc|Hc].
    + rewrite normalize_valid in H by done. injection H as <- _.
      split; [done|]. rewrite cache_key_category by done. split; [done|].
      simpl. destruct Hc as [-> | [-> | ->]]; discriminate.
    + rewrite normalize_invalid in H by done. discriminate.
Qed.

(** ** Copy isolation *)

Lemma view_agree w w' l items :
  list_objs w !! l = Some items → list_objs w' !! l = Some items →
  Forall (λ a, is_Some (mood_objs w !! a)
               ∧ mood_objs w' !! a = mood_objs w !! a) items →
  view w' l = view w l.
Proof.
  intros Hl Hl' Hitems. unfold view, the_list. rewrite Hl, Hl'. simpl.
  apply list_fmap_ext. intros i a Hi.
  eapply Forall_lookup_1 in Hitems as [[m Hm] Heq]; [|exact Hi].
  rewrite (the_mood_lookup w a m Hm).
  apply the_mood_lookup. congruence.
Qed.

Lemma closed_cached w key l :
  closed w → _mood_cache w !! key = Some l →
  ∃ items, list_objs w !! l = Some items
           ∧ Forall (λ a, is_Some (mood_objs w !! a)) items.
Proof.
  intros [Hc Hl] Hk. destruct (Hc key l Hk) as [items Hitems].
  exists items. split; [done|]. exact (Hl l items Hitems).
Qed.

(** C4. Where the references of the store are live and [snap] is what is
    cached under [key], a cache read returns a list whose records are
    [snap], held in a list object and [Mood] instances that did not exist
    before the read, so none of them is part of the cached snapshot.
    Whatever the caller then does to the returned list and to the
    records in it, the snapshot under [key] is still [snap], and a
    second read returns [snap] again. *)
Theorem cached_read_is_isolated (key : string) (w : World) (snap : list Mood) :
  closed w → snapshot w key = Some snap →
  ∃ r w1,
    _get_cached_moods key w = (Return (Some r), w1)
    ∧ view w1 r = snap
    ∧ list_objs w !! r = None
    ∧ Forall (λ a, mood_objs w !! a = None) (the_list w1 r)
    ∧ ∀ w2, caller_mutation w1 r w2 →
        snapshot w2 key = Some snap
        ∧ ∃ r' w3, _get_cached_moods key w2 = (Return (Some r'), w3)
                   ∧ view w3 r' = snap.
Proof.
  intros Hclosed Hsnap. unfold snapshot in Hsnap.
  destruct (_mood_cache w !! key) as [l|] eqn:Hk; [|discriminate].
  injection Hsnap as <-.
  destruct (closed_cached w key l Hclosed Hk) as (items & Hl & Hlive).
  assert (Hthe : the_list w l = items) by (unfold the_list; by rewrite Hl).
  destruct (get_cached_hit key w l Hk)
    as (cs & w1 & Hget & Hl1 & Hc1 & _ & Hsub & Hfresh & _ & Hview).
  rewrite Hthe in Hview. specialize (Hview Hlive).
  set (r := fresh (dom (list_objs w))) in *.
  assert (Hr : list_objs w !! r = None) by apply fresh_list_unused.
  assert (Hcs : the_list w1 r = cs).
  { unfold the_list. by rewrite Hl1, lookup_insert_eq. }
  exists r, w1. split; [exact Hget|]. split; [exact Hview|].
  split; [exact Hr|]. split; [by rewrite Hcs|].
  intros w2 (Hc2 & Hl2 & Hm2).
  assert (Hne : l ≠ r) by congruence.
  assert (Hl1l : list_objs w1 !! l = Some items).
  { by rewrite Hl1, lookup_insert_ne. }
  assert (Hl2l : list_objs w2 !! l = Some items).
  { rewrite Hl2; [done|done|]. rewrite Hl1l. eauto. }
  assert (Hitems2 : Forall (λ a, is_Some (mood_objs w !! a)
                     ∧ mood_objs w2 !! a = mood_objs w !! a) items).
  { eapply Forall_impl; [exact Hlive|]. intros a [m Hm]. cbv beta.
    split; [eauto|].
    assert (Hm1 : mood_objs w1 !! a = Some m) by by eapply lookup_weaken.
    rewrite Hm2.
    - congruence.
    - rewrite Hcs. intros Hin.
      eapply Forall_forall in Hfresh; [|exact Hin]. congruence.
    - rewrite Hm1. eauto. }
  assert (Hview2 : view w2 l = view w l) by by eapply view_agree.
  assert (Hk2 : _mood_cache w2 !! key = Some l) by (rewrite Hc2, Hc1; done).
  split.
  - unfold snapshot. rewrite Hk2. simpl. by rewrite Hview2.
  - destruct (get_cached_hit key w2 l Hk2)
      as (cs' & w3 & Hget' & _ & _ & _ & _ & _ & _ & Hview').
    eexists _, w3. split; [exact Hget'|]. rewrite Hview'.
    + exact Hview2.
    + unfold the_list. rewrite Hl2l. simpl.
      eapply Forall_impl; [exact Hitems2|]. intros a [[m Hm] Heq].
      cbv beta. rewrite Heq. eauto.
Qed.

(** What [_store_cache] leaves under [key] is a copy of the caller's list:
    the same records, in a list object and instances created by the
    call. *)
Lemma stored_list_is_a_copy key moods w :
  closed w →
  ∃ l w',
    _store_cache key moods w = (Return tt, w')
    ∧ _mood_cache w' = <[key := l]> (_mood_cache w)
    ∧ snapshot w' key = Some (view w moods)
    ∧ list_objs w !! l = None
    ∧ Forall (λ a, mood_objs w !! a = None) (the_list w' l).
Proof.
  intros [_ Hlists].
  destruct (store_cache_spec key moods w)
    as (cs & w' & Hrun & Hl & Hc & _ & _ & Hfresh & _ & Hview).
  exists (fresh (dom (list_objs w))), w'.
  split; [exact Hrun|]. split; [exact Hc|]. split; [|split].
  - unfold snapshot. rewrite Hc, lookup_insert_eq. simpl. f_equal.
    apply Hview. unfold the_list.
    destruct (list_objs w !! moods) as [items|] eqn:E; simpl; [|done].
    exact (Hlists moods items E).
  - apply fresh_list_unused.
  - unfold the_list. by rewrite Hl, lookup_insert_eq.
Qed.

(** ** Stores stay closed *)

Lemma closed_alloc w w' l items :
  closed w →
  mood_objs w ⊆ mood_objs w' →
  list_objs w !! l = None →
  list_objs w' = <[l := items]> (list_objs w) →
  Forall (λ a, is_Some (mood_objs w' !! a)) items →
  (_mood_cache w' = _mood_cache w
   ∨ ∃ key, _mood_cache w' = <[key := l]> (_mood_cache w)) →
  closed w'.
Proof.
  intros [Hc Hl] Hsub Hnew Hl' Hitems Hcache.
  assert (Hold : ∀ k l0, _mood_cache w !! k = Some l0 →
                         is_Some (list_objs w' !! l0)).
  { intros k l0 Hk. destruct (Hc k l0 Hk) as [its Hits].
    rewrite Hl', lookup_insert_ne by congruence. eauto. }
  split.
  - destruct Hcache as [-> | [key ->]]; [exact Hold|].
    apply map_Forall_insert_2; [|exact Hold].
    rewrite Hl', lookup_insert_eq. eauto.
  - rewrite Hl'. apply map_Forall_insert_2; [exact Hitems|].
    intros l0 its Hits. eapply Forall_impl; [exact (Hl l0 its Hits)|].
    intros a [m Hm]. exists m. by eapply lookup_weaken.
Qed.

Lemma lookup_or_load_closed self key statement w r w' :
  (cached ← _get_cached_moods key;
   match cached with
   | Some cached => mret cached
   | None =>
       moods ← exec_list self statement;
       _store_cache key moods;;
       mret moods
   end) w = (r, w') →
  closed w → closed w'.
Proof.
  intros H Hclosed. revert H.
  unfold mbind at 1, M_bind at 1, bind at 1.
  destruct (_mood_cache w !! key) as [l|] eqn:E.
  - destruct (get_cached_hit key w l E)
      as (cs & w1 & -> & Hl & Hc & _ & Hsub & _ & Hlive & _).
    intros [= _ <-].
    eapply closed_alloc; eauto using fresh_list_unused.
  - rewrite get_cached_miss by done.
    unfold mbind at 1, M_bind at 1, bind at 1.
    destruct (session self statement) as [rows|e] eqn:Es.
    + destruct (exec_list_returns self statement w rows Es)
        as (items & w1 & -> & Hl1 & Hc1 & _ & Hsub1 & Hlive1 & _).
      assert (closed w1) as Hclosed1.
      { eapply closed_alloc; eauto using fresh_list_unused. }
      monad.
      destruct (store_cache_spec key (fresh (dom (list_objs w))) w1)
        as (cs & w2 & -> & Hl2 & Hc2 & _ & Hsub2 & _ & Hlive2 & _).
      intros [= _ <-].
      eapply closed_alloc; eauto using fresh_list_unused.
    + rewrite (exec_list_raises _ _ _ e) by done. intros [= _ <-].
      exact Hclosed.
Qed.

Lemma op_keeps_closed o w : closed w → closed (snd (op o w)).
Proof.
  intros Hw. destruct o as [self|self category|]; unfold op.
  - unfold mbind, M_bind, bind.
    destruct (get_all_moods self w) as [r w'] eqn:E.
    apply lookup_or_load_closed in E; [|done]. by destruct r.
  - unfold mbind, M_bind, bind.
    destruct (get_moods_by_category self category w) as [r w'] eqn:E.
    assert (closed w') as Hw'.
    { destruct (decide (is_category (Str.lower category))) as [Hc|Hc].
      - rewrite by_category_valid in E by done.
        by apply lookup_or_load_closed in E.
      - rewrite by_category_invalid in E by done. by injection E as _ <-. }
    by destruct r.
  - destruct Hw as [_ Hl]. split; [|exact Hl]. simpl.
    apply map_Forall_empty.
Qed.

Lemma ops_closed os : ∀ w, closed w → closed (ops os w).
Proof.
  induction os as [|o os IH]; intros w Hw; simpl; [done|].
  apply IH. by apply op_keeps_closed.
Qed.

Lemma closed_empty : closed empty_world.
Proof. split; simpl; apply map_Forall_empty. Qed.

(** ** The caller's mutations *)

Lemma set_name_is_caller_mutation w r i text :
  caller_mutation w r (set_name r i text w).
Proof.
  unfold set_name. destruct (the_list w r !! i) as [a|] eqn:E.
  - split; [done|]. split; [done|]. intros a' Hnot _. simpl.
    apply lookup_insert_ne. intros <-. apply Hnot.
    by eapply list_elem_of_lookup_2.
  - by split.
Qed.

Lemma list_clear_is_caller_mutation w r : caller_mutation w r (list_clear r w).
Proof.
  split; [done|]. split; [|done]. intros l Hne _. simpl.
  by apply lookup_insert_ne.
Qed.

Lemma list_append_new_is_caller_mutation w r m :
  caller_mutation w r (list_append_new r m w).
Proof.
  unfold list_append_new. rewrite new_Mood_spec.
  split; [done|]. split.
  - intros l Hne _. simpl. by apply lookup_insert_ne.
  - intros a _ [m' Hm']. simpl. apply lookup_insert_ne. intros <-.
    by rewrite fresh_mood_unused in Hm'.
Qed.

(** ** The properties at concrete states *)

(** The state after a first [get_all_moods] through [sample_service]. *)
Example loaded_world_snapshot :
  snapshot (ops [GetAll sample_service] empty_world) "__all__"
  = Some sample_moods.
Proof. vm_compute. reflexivity. Qed.

(** A caller renames the first record of the list it got and clears the
    list; the next reader still gets the three rows. *)
Example tampering_is_not_seen :
  let w := ops [GetAll sample_service] empty_world in
  match _get_cached_moods "__all__" w with
  | (Return (Some r), w1) =>
      let w2 := list_clear r (set_name r 0 "tampered" w1) in
      view w1 r = sample_moods
      ∧ view w2 r = []
      ∧ snapshot w2 "__all__" = Some sample_moods
      ∧ match _get_cached_moods "__all__" w2 with
        | (Return (Some r'), w3) => view w3 r' = sample_moods
        | _ => False
        end
  | _ => False
  end.
Proof. vm_compute. repeat split; reflexivity. Qed.

(** C4 at the state after a first [get_all_moods]. *)
Lemma cached_read_is_isolated_witness :
  let w := ops [GetAll sample_service] empty_world in
  closed w ∧ snapshot w "__all__" = Some sample_moods
  ∧ ∃ r w1,
      _get_cached_moods "__all__" w = (Return (Some r), w1)
      ∧ view w1 r = sample_moods
      ∧ list_objs w !! r = None
      ∧ Forall (λ a, mood_objs w !! a = None) (the_list w1 r)
      ∧ ∀ w2, caller_mutation w1 r w2 →
          snapshot w2 "__all__" = Some sample_moods
          ∧ ∃ r' w3, _get_cached_moods "__all__" w2 = (Return (Some r'), w3)
                     ∧ view w3 r' = sample_moods.
Proof.
  assert (Hc : closed (ops [GetAll sample_service] empty_world)).
  { apply ops_closed, closed_empty. }
  assert (Hs : snapshot (ops [GetAll sample_service] empty_world) "__all__"
               = Some sample_moods).
  { vm_compute. reflexivity. }
  split; [exact Hc|]. split; [exact Hs|].
  exact (cached_read_is_isolated "__all__" _ sample_moods Hc Hs).
Defined.

(** C5 with the storage down and an empty cache. *)
Lemma storage_error_propagates_witness :
  (_mood_cache empty_world !! "__all__" = None
   ∧ session failing_service select_moods = Raise storage_down
   ∧ get_all_moods failing_service empty_world
     = (Raise storage_down,
        {| mood_objs := ∅; list_objs := ∅; _mood_cache := ∅;
           executed := [select_moods] |}))
  ∧ (is_category (Str.lower "Negative")
     ∧ _mood_cache empty_world !! Str.lower "Negative" = None
     ∧ session failing_service (select_moods_where (Str.lower "Negative"))
       = Raise storage_down
     ∧ get_moods_by_category failing_service "Negative" empty_world
       = (Raise storage_down,
          {| mood_objs := ∅; list_objs := ∅; _mood_cache := ∅;
             executed := [select_moods_where "negative"] |})).
Proof.
  destruct (storage_error_propagates failing_service empty_world storage_down)
    as [Hall Hcat].
  assert (Hn : is_category (Str.lower "Negative")) by (right; left; reflexivity).
  split.
  - split; [reflexivity|]. split; [reflexivity|].
    exact (Hall eq_refl eq_refl).
  - split; [exact Hn|]. split; [reflexivity|]. split; [reflexivity|].
    exact (Hcat "Negative" Hn eq_refl eq_refl).
Defined.

(** C7 at ["Positive"] and ["positive"], and at an input that is no
    category. *)
Lemma category_key_is_normalized_witness :
  (Str.lower "Positive" = Str.lower "positive"
   ∧ is_category (Str.lower "Positive")
   ∧ get_moods_by_category sample_service "Positive" empty_world
     = get_moods_by_category sample_service "positive" empty_world)
  ∧ (¬ is_category (Str.lower "Joyful")
     ∧ get_moods_by_category sample_service "Joyful" empty_world
       = (Raise (mkExc MoodNotFoundError "Invalid mood category 'Joyful'"),
          empty_world)).
Proof.
  destruct (category_key_is_normalized sample_service empty_world)
    as [Hsame Hbad].
  assert (Hp : is_category (Str.lower "Positive")) by (left; reflexivity).
  assert (Hj : ¬ is_category (Str.lower "Joyful")).
  { intros [H | [H | H]]; discriminate. }
  split.
  - split; [reflexivity|]. split; [exact Hp|].
    exact (proj1 (Hsame "Positive" "positive" eq_refl Hp)).
  - split; [exact Hj|]. exact (Hbad "Joyful" Hj).
Defined.

(** The slot filled through ["Positive"] is the one ["POSITIVE"] reads. *)
Example other_spelling_hits :
  let w := ops [GetByCategory sample_service "Positive"] empty_world in
  dom (_mood_cache w) = {["positive"]}
  ∧ executed w = [select_moods_where "positive"]
  ∧ executed (ops [GetByCategory failing_service "POSITIVE"] w) = executed w
  ∧ returns (fst (get_moods_by_category failing_service "POSITIVE" w)) = true.
Proof. vm_compute. repeat split; reflexivity. Qed.

(** C10 along a run that mixes the three operations and a rejected
    input. *)
Lemma cache_keys_stay_in_closed_set_witness :
  let os := [GetByCategory sample_service "NEUTRAL"; GetAll sample_service;
             Invalidate; GetByCategory sample_service "bogus";
             GetByCategory failing_service "negative";
             GetByCategory sample_service "Negative"] in
  keys_ok empty_world
  ∧ keys_ok (ops os empty_world)
  ∧ ¬ is_category (_cache_key None)
  ∧ ∀ category u normalized u',
      _normalize_category category u = (Return normalized, u') →
      is_category normalized
      ∧ _cache_key (Some normalized) = normalized
      ∧ _cache_key (Some normalized) ≠ _cache_key None.
Proof.
  split; [exact keys_ok_empty|].
  exact (cache_keys_stay_in_closed_set _ empty_world keys_ok_empty).
Defined.

End MoodServiceSpec.

(* ===================================================================== *)
(** * Properties of [strip] and [lower] *)
(* ===================================================================== *)

Module StrFacts.

Lemma drop_while_idem p l :
  Str.drop_while p (Str.drop_while p l) = Str.drop_while p l.
Proof.
  induction l as [|a l IH]; simpl; [done|].
  destruct (p a) eqn:E; [done|]. simpl. by rewrite E.
Qed.

Lemma drop_while_keeps p a l :
  p a = false → Str.drop_while p (a :: l) = a :: l.
Proof. intros H. simpl. by rewrite H. Qed.

Lemma drop_while_snoc p a l :
  p a = false → Str.drop_while p (l ++ [a]) = Str.drop_while p l ++ [a].
Proof.
  intros H. induction l as [|b l IH]; simpl; [by rewrite H|].
  by destruct (p b).
Qed.

Lemma drop_while_map p f l :
  (∀ a, p (f a) = p a) →
  Str.drop_while p (map f l) = map f (Str.drop_while p l).
Proof.
  intros H. induction l as [|a l IH]; simpl; [done|].
  rewrite H. by destruct (p a).
Qed.

(** Trimming both ends leaves nothing more to trim. *)
Lemma trim_head p l :
  Str.drop_while p (rev (Str.drop_while p (rev (Str.drop_while p l))))
  = rev (Str.drop_while p (rev (Str.drop_while p l))).
Proof.
  destruct (Str.drop_while p l) as [|a k] eqn:E; [done|].
  assert (Ha : p a = false).
  { clear -E. revert E. induction l as [|b l IH]; simpl; intros E.
    - discriminate.
    - destruct (p b) eqn:Eb; [auto|]. injection E as -> _. exact Eb. }
  assert (Hrw : rev (Str.drop_while p (rev (a :: k)))
                = a :: rev (Str.drop_while p (rev k))).
  { simpl rev at 2. rewrite drop_while_snoc by done.
    by rewrite rev_app_distr. }
  rewrite Hrw. by apply drop_while_keeps.
Qed.

Lemma strip_with_idem p s :
  Str.strip_with p (Str.strip_with p s) = Str.strip_with p s.
Proof.
  unfold Str.strip_with. rewrite list_ascii_of_string_of_list_ascii.
  f_equal.
  rewrite (trim_head p (list_ascii_of_string s)) at 1.
  rewrite rev_involutive, drop_while_idem. done.
Qed.

Lemma lower_char_idem a : Str.lower_char (Str.lower_char a) = Str.lower_char a.
Proof. destruct a as [[] [] [] [] [] [] [] []]; reflexivity. Qed.

Lemma isspace_lower_char a : Str.isspace (Str.lower_char a) = Str.isspace a.
Proof. destruct a as [[] [] [] [] [] [] [] []]; reflexivity. Qed.

Lemma lower_as_map s :
  list_ascii_of_string (Str.lower s)
  = map Str.lower_char (list_ascii_of_string s).
Proof. induction s as [|a s IH]; simpl; [done|]. by rewrite IH. Qed.

Lemma lower_of_list l :
  string_of_list_ascii (map Str.lower_char l)
  = Str.lower (string_of_list_ascii l).
Proof. induction l as [|a l IH]; simpl; [done|]. by rewrite IH. Qed.

Lemma lower_idem s : Str.lower (Str.lower s) = Str.lower s.
Proof.
  induction s as [|a s IH]; simpl; [done|]. by rewrite lower_char_idem, IH.
Qed.

Lemma strip_lower s : Str.strip (Str.lower s) = Str.lower (Str.strip s).
Proof.
  unfold Str.strip, Str.strip_with. rewrite lower_as_map.
  rewrite drop_while_map by apply isspace_lower_char.
  rewrite <- map_rev, drop_while_map by apply isspace_lower_char.
  by rewrite <- map_rev, lower_of_list.
Qed.

Lemma strip_idem s : Str.strip (Str.strip s) = Str.strip s.
Proof. apply strip_with_idem. Qed.

Lemma lower_empty s : Str.lower s = "" ↔ s = "".
Proof. destruct s; simpl; split; congruence. Qed.

Lemma length_zero s : (String.length s =? 0)%nat = negb (Str.truthy s).
Proof. by destruct s. Qed.

(** The lower-cased stripped form is a fixed point of both operations. *)
Lemma normal_form_fixed s :
  Str.lower (Str.strip (Str.lower (Str.strip s))) = Str.lower (Str.strip s).
Proof. by rewrite strip_lower, strip_idem, lower_idem. Qed.

End StrFacts.

(* ===================================================================== *)
(** * Properties of the field validators *)
(* ===================================================================== *)

Module MoodModelSpec.
Import MoodService MoodModel StrFacts.

Lemma validate_name_cases v :
  validate_name v =
  if Str.truthy (Str.strip v)
  then Return (Str.lower (Str.strip v))
  else Raise (mkExc ValueError "Mood name cannot be empty").
Proof.
  unfold validate_name. rewrite length_zero.
  destruct v as [|a s]; [reflexivity|].
  change (Str.truthy (String a s)) with true. simpl negb. simpl orb.
  by destruct (Str.truthy _).
Qed.

(** X6. [validate_name] rejects the names that are empty or whitespace and
    returns every other name stripped and in lower case.  What it returns
    is not empty, has no surrounding whitespace, is in lower case, and is
    returned unchanged when validated again. *)
Theorem validate_name_normalizes (v : string) :
  (Str.strip v = "" →
   validate_name v = Raise (mkExc ValueError "Mood name cannot be empty"))
  ∧ (Str.strip v ≠ "" →
     validate_name v = Return (Str.lower (Str.strip v)))
  ∧ ∀ result,
      validate_name v = Return result →
      result ≠ ""
      ∧ Str.strip result = result
      ∧ Str.lower result = result
      ∧ validate_name result = Return result.
Proof.
  split; [|split].
  - intros H. by rewrite validate_name_cases, H.
  - intros H. rewrite validate_name_cases. destruct (Str.strip v); done.
  - intros result. rewrite validate_name_cases.
    destruct (Str.truthy (Str.strip v)) eqn:Ht; [|discriminate].
    intros [= <-].
    assert (Hne : Str.lower (Str.strip v) ≠ "").
    { rewrite lower_empty. by destruct (Str.strip v). }
    assert (Hs : Str.strip (Str.lower (Str.strip v)) = Str.lower (Str.strip v)).
    { by rewrite strip_lower, strip_idem. }
    split; [done|]. split; [done|]. split; [apply lower_idem|].
    rewrite validate_name_cases, Hs, lower_idem.
    by destruct (Str.lower (Str.strip v)).
Qed.

(** X7. [validate_note] is idempotent and what it keeps is stripped.  A
    note of whitespace only becomes [None], while the empty note is kept
    as the empty string. *)
Theorem validate_note_normalizes (v : option string) :
  validate_note (validate_note v) = validate_note v
  ∧ (∀ text, v = Some text → text ≠ "" → Str.strip text = "" →
             validate_note v = None)
  ∧ (validate_note (Some "") = Some "")
  ∧ ∀ result, validate_note v = Some result → Str.strip result = result.
Proof.
  assert (Hcases : ∀ text, validate_note (Some text) =
            if Str.truthy text
            then (if Str.truthy (Str.strip text) then Some (Str.strip text)
                  else None)
            else Some text).
  { intros text. unfold validate_note. rewrite length_zero.
    destruct (Str.truthy text), (Str.truthy (Str.strip text)); reflexivity. }
  split; [|split; [|split]].
  - destruct v as [text|]; [|reflexivity]. rewrite Hcases.
    destruct (Str.truthy text) eqn:Ht.
    + destruct (Str.truthy (Str.strip text)) eqn:Hs; [|reflexivity].
      rewrite Hcases, Hs, strip_idem, Hs. reflexivity.
    + by rewrite Hcases, Ht.
  - intros text -> Hne Hblank. rewrite Hcases, Hblank.
    by destruct text.
  - reflexivity.
  - intros result. destruct v as [text|]; [|discriminate]. rewrite Hcases.
    destruct (Str.truthy text) eqn:Ht.
    + destruct (Str.truthy (Str.strip text)); [|discriminate].
      intros [= <-]. apply strip_idem.
    + intros [= <-]. by destruct text.
Qed.

(** X8. [validate_category] accepts exactly the three category values, so
    whatever [_normalize_category] returns passes it unchanged. *)
Theorem validate_category_accepts_normalized (category : string) :
  (∀ normalized (w w' : World),
     _normalize_category category w = (Return normalized, w') →
     validate_category normalized = Return normalized)
  ∧ (∀ v, returns (validate_category v) = true ↔ is_category v).
Proof.
  assert (Hv : ∀ v, returns (validate_category v) = true ↔ is_category v).
  { intros v. unfold validate_category, is_category. simpl fmap.
    case_bool_decide as H; simpl.
    - split; [|done]. intros _.
      rewrite !elem_of_cons, elem_of_nil in H. tauto.
    - split; [done|]. intros Hc. exfalso. apply H.
      rewrite !elem_of_cons. tauto. }
  split; [|exact Hv].
  intros normalized w w' H.
  assert (Hc : is_category normalized).
  { destruct (decide (is_category (Str.lower category))) as [Hc|Hc].
    - rewrite MoodServiceSpec.normalize_valid in H by done.
      by injection H as <- _.
    - by rewrite MoodServiceSpec.normalize_invalid in H. }
  apply Hv in Hc. unfold validate_category in *.
  by case_bool_decide.
Qed.

(** X6 at a blank name and at a name with capitals and blanks. *)
Lemma validate_name_normalizes_witness :
  (Str.strip "   " = ""
   ∧ validate_name "   "
     = Raise (mkExc ValueError "Mood name cannot be empty"))
  ∧ (Str.strip "  Calm " ≠ "" ∧ validate_name "  Calm " = Return "calm")
  ∧ (validate_name "  Calm " = Return "calm"
     ∧ "calm" ≠ "" ∧ Str.strip "calm" = "calm" ∧ Str.lower "calm" = "calm"
     ∧ validate_name "calm" = Return "calm").
Proof.
  destruct (validate_name_normalizes "   ") as [H1 _].
  destruct (validate_name_normalizes "  Calm ") as (_ & H2 & H3).
  assert (Hne : Str.strip "  Calm " ≠ "") by (vm_compute; discriminate).
  split; [split; [reflexivity|exact (H1 eq_refl)]|].
  split; [split; [exact Hne|exact (H2 Hne)]|].
  split; [reflexivity|exact (H3 "calm" eq_refl)].
Defined.

(** X7 at a note of blanks and at a note with blanks around it. *)
Lemma validate_note_normalizes_witness :
  ("   " ≠ "" ∧ Str.strip "   " = "" ∧ validate_note (Some "   ") = None)
  ∧ (validate_note (Some " fine ") = Some "fine"
     ∧ Str.strip "fine" = "fine").
Proof.
  destruct (validate_note_normalizes (Some "   ")) as (_ & H & _).
  destruct (validate_note_normalizes (Some " fine ")) as (_ & _ & _ & H').
  assert (Hne : "   " ≠ "") by discriminate.
  split.
  - split; [exact Hne|]. split; [reflexivity|].
    exact (H "   " eq_refl Hne eq_refl).
  - split; [reflexivity|]. exact (H' "fine" eq_refl).
Defined.

(** X8 at a category given in capitals. *)
Lemma validate_category_accepts_normalized_witness :
  _normalize_category "NEUTRAL" empty_world = (Return "neutral", empty_world)
  ∧ validate_category "neutral" = Return "neutral".
Proof.
  split; [reflexivity|].
  exact (proj1 (validate_category_accepts_normalized "NEUTRAL")
           "neutral" empty_world empty_world eq_refl).
Defined.

End MoodModelSpec.

(* ===================================================================== *)
(** * Properties of limits, mood names and lookup by name *)
(* ===================================================================== *)

Module MoodLookupSpec.
Import MoodService MoodLookup StrFacts.

(** ** Page limits *)

(** X1. [_normalize_limit] always yields a page size between 1 and 100 and
    is idempotent: a limit in that range is kept, a limit of zero or less
    becomes the default 50, a larger one is cut to 100. *)
Theorem normalize_limit_in_range (limit : Z) :
  (1 ≤ _normalize_limit limit ≤ 100)%Z
  ∧ _normalize_limit (_normalize_limit limit) = _normalize_limit limit
  ∧ ((1 ≤ limit ≤ 100)%Z → _normalize_limit limit = limit)
  ∧ ((limit ≤ 0)%Z → _normalize_limit limit = 50%Z)
  ∧ ((100 ≤ limit)%Z → _normalize_limit limit = 100%Z).
Proof.
  unfold _normalize_limit, DEFAULT_MOOD_PAGE_LIMIT, MAX_MOOD_PAGE_LIMIT.
  destruct (Z.leb_spec limit 0).
  - simpl. repeat split; intros; lia.
  - destruct (Z.leb_spec (Z.min limit 100) 0); [lia|].
    repeat split; intros; lia.
Qed.

(** ** Mood names *)

Lemma match_alias_some normalized items mood :
  match_alias normalized items = Some mood → mood ∈ (fst <$> items).
Proof.
  induction items as [|[m al] rest IH]; simpl; [done|].
  destruct (_ || _).
  - intros [= ->]. left.
  - intros H. right. auto.
Qed.

Lemma match_alias_none normalized items :
  match_alias normalized items = None →
  (normalized ∉ (fst <$> items)) ∧ (normalized ∉ (items ≫= snd)).
Proof.
  induction items as [|[m al] rest IH]; simpl.
  - intros _. split; apply not_elem_of_nil.
  - destruct (bool_decide (normalized = m)) eqn:E1; simpl; [done|].
    destruct (bool_decide (normalized ∈ al)) eqn:E2; simpl; [done|].
    apply bool_decide_eq_false in E1, E2.
    intros H. destruct (IH H) as [H1 H2]. split.
    + rewrite not_elem_of_cons. done.
    + rewrite elem_of_app. tauto.
Qed.

Lemma table_words_resolve :
  Forall (λ '(mood, aliases),
            Forall (λ word, match_alias word mood_aliases = Some mood)
                   (mood :: aliases)) mood_aliases.
Proof. repeat (constructor; [repeat constructor|]). constructor. Qed.

Lemma mood_words_are_no_aliases :
  Forall (λ mood, mood ∉ alias_words) mood_words.
Proof.
  apply (bool_decide_unpack _). vm_compute. exact I.
Qed.

Lemma mood_words_normal :
  Forall (λ mood, Str.lower (Str.strip mood) = mood ∧ mood ≠ "") mood_words.
Proof. repeat constructor; discriminate. Qed.

Lemma normalize_nonempty mood_name :
  mood_name ≠ "" →
  _normalize_mood_name mood_name
  = Return (default (Str.lower (Str.strip mood_name))
              (match_alias (Str.lower (Str.strip mood_name)) mood_aliases)).
Proof.
  intros Hne. unfold _normalize_mood_name.
  destruct mood_name as [|a s]; [done|].
  change (Str.truthy (String a s)) with true. cbv beta iota. simpl negb.
  cbv iota. by destruct (match_alias _ _).
Qed.

Lemma normalize_empty :
  _normalize_mood_name ""
  = Raise (mkExc MoodNotFoundError "Mood name cannot be empty").
Proof. reflexivity. Qed.

Lemma table_word_resolves mood aliases word :
  (mood, aliases) ∈ mood_aliases → word ∈ mood :: aliases →
  match_alias word mood_aliases = Some mood.
Proof.
  intros Hentry Hword. pose proof table_words_resolve as H.
  rewrite Forall_forall in H. specialize (H _ Hentry). cbv beta iota in H.
  rewrite Forall_forall in H. exact (H _ Hword).
Qed.

Lemma table_spelling_resolves mood_name mood aliases :
  mood_name ≠ "" →
  (mood, aliases) ∈ mood_aliases →
  Str.lower (Str.strip mood_name) ∈ mood :: aliases →
  _normalize_mood_name mood_name = Return mood.
Proof.
  intros Hne Hentry Hword. rewrite normalize_nonempty by done.
  by rewrite (table_word_resolves mood aliases).
Qed.

(** X2. Every spelling of a mood word of the alias table or of one of its
    aliases, in any letter case and with any surrounding whitespace,
    normalizes to that mood word: no word of the table is claimed by two
    entries. *)
Theorem alias_spellings_resolve (mood_name mood : string)
    (aliases : list string) :
  mood_name ≠ "" →
  (mood, aliases) ∈ mood_aliases →
  Str.lower (Str.strip mood_name) ∈ mood :: aliases →
  _normalize_mood_name mood_name = Return mood.
Proof. apply table_spelling_resolves. Qed.

(** X3. What [_normalize_mood_name] returns is never an alias word, is in
    lower case without surrounding whitespace, and, unless it is empty,
    normalizes to itself.  It is empty exactly when the name given
    consists of whitespace only: such a name passes the emptiness check
    and comes back as the empty string, which the function itself would
    reject. *)
Theorem normalized_name_is_canonical (mood_name result : string) :
  _normalize_mood_name mood_name = Return result →
  (result ∉ alias_words)
  ∧ Str.lower (Str.strip result) = result
  ∧ (result ≠ "" → _normalize_mood_name result = Return result)
  ∧ (result = "" ↔ Str.strip mood_name = "").
Proof.
  destruct (decide (mood_name = "")) as [->|Hne]; [discriminate|].
  rewrite normalize_nonempty by done.
  set (normalized := Str.lower (Str.strip mood_name)).
  destruct (match_alias normalized mood_aliases) as [mood|] eqn:Em;
    simpl; intros [= <-].
  - assert (Hin : mood ∈ mood_words) by by eapply match_alias_some.
    pose proof mood_words_are_no_aliases as Hna.
    pose proof mood_words_normal as Hnorm.
    rewrite Forall_forall in Hna, Hnorm.
    destruct (Hnorm _ Hin) as [Hfix Hmood].
    split; [by apply Hna|]. split; [done|]. split.
    + intros _. rewrite normalize_nonempty, Hfix by done.
      apply list_elem_of_fmap in Hin as [[m al] [-> Hentry]].
      rewrite (table_word_resolves m al); [done|done|left].
    + split; [done|]. intros Hblank. exfalso.
      unfold normalized in Em. rewrite Hblank in Em. discriminate.
  - destruct (match_alias_none _ _ Em) as [_ Hna].
    split; [exact Hna|]. split; [apply normal_form_fixed|]. split.
    + intros Hn. rewrite normalize_nonempty by done.
      unfold normalized. rewrite normal_form_fixed. fold normalized.
      by rewrite Em.
    + unfold normalized. apply lower_empty.
Qed.

Lemma match_alias_word normalized items mood :
  match_alias normalized items = Some mood →
  normalized = mood ∨ normalized ∈ (items ≫= snd).
Proof.
  induction items as [|[m al] rest IH]; simpl; [done|].
  destruct (bool_decide (normalized = m)) eqn:E1; simpl.
  { apply bool_decide_eq_true in E1. intros [= <-]. by left. }
  destruct (bool_decide (normalized ∈ al)) eqn:E2; simpl.
  { apply bool_decide_eq_true in E2. intros _. right.
    rewrite elem_of_app. by left. }
  intros H. destruct (IH H) as [?|?]; [by left|].
  right. rewrite elem_of_app. by right.
Qed.

(** X21. A name that is not blank is stored by [validate_name] and
    searched by [_normalize_mood_name] under the same form, its stripped
    lower-case form, unless that form is an alias word: then the search
    form is the mood word of the alias and differs from the stored one. *)
Theorem stored_and_searched_names_agree (v : string) :
  Str.strip v ≠ "" →
  (Str.lower (Str.strip v) ∉ alias_words →
   _normalize_mood_name v = MoodModel.validate_name v)
  ∧ (Str.lower (Str.strip v) ∈ alias_words →
     _normalize_mood_name v ≠ MoodModel.validate_name v).
Proof.
  intros Hs.
  assert (Hv : v ≠ "") by (intros ->; by apply Hs).
  assert (Hval : MoodModel.validate_name v = Return (Str.lower (Str.strip v))).
  { rewrite MoodModelSpec.validate_name_cases. by destruct (Str.strip v). }
  rewrite Hval, normalize_nonempty by done.
  destruct (match_alias (Str.lower (Str.strip v)) mood_aliases)
    as [mood|] eqn:Em; simpl.
  - split.
    + intros Hna. destruct (match_alias_word _ _ _ Em) as [->|Hin]; done.
    + intros Hin [= Heq]. rewrite Heq in Em.
      apply match_alias_some in Em. rewrite <- Heq in Hin.
      pose proof mood_words_are_no_aliases as Hno.
      rewrite Forall_forall in Hno. rewrite Heq in Hin. by apply (Hno _ Em).
  - split; [done|]. intros Hin.
    by destruct (match_alias_none _ _ Em) as [_ Hna].
Qed.

(** ** Lookup by name *)

Lemma find_unfold self mood_name normalized executed :
  _normalize_mood_name mood_name = Return normalized →
  find_mood_by_name self mood_name executed
  = match rows self (select_mood_named normalized) with
    | Raise e => (Raise e, executed ++ [select_mood_named normalized])
    | Return (mood :: _) =>
        (Return (Some mood), executed ++ [select_mood_named normalized])
    | Return [] =>
        let pattern := "%" +:+ normalized +:+ "%" in
        match rows self (select_moods_like pattern) with
        | Raise e =>
            (Raise e, executed ++ [select_mood_named normalized;
                                   select_moods_like pattern])
        | Return moods =>
            (Return (head moods),
             executed ++ [select_mood_named normalized;
                          select_moods_like pattern])
        end
    end.
Proof.
  intros Hn. unfold find_mood_by_name, session_exec. monad. rewrite Hn.
  destruct (rows self (select_mood_named normalized)) as [[|m found]|e];
    simpl; try reflexivity.
  rewrite <- app_assoc. simpl.
  destruct (rows self _) as [[|m1 [|m2 moods]]|e]; reflexivity.
Qed.

(** X4. When the statement for the exact name yields rows,
    [find_mood_by_name] returns the first of them and executes nothing
    else.  When it yields none, the pattern statement for
    [%name%] is executed and its first row is returned, whether one row
    or several match; with no row the result is [None]. *)
Theorem find_prefers_exact_match (self : Session) (mood_name normalized : string)
    (found : list Mood) (executed : list Statement) :
  _normalize_mood_name mood_name = Return normalized →
  rows self (select_mood_named normalized) = Return found →
  match found with
  | mood :: _ =>
      find_mood_by_name self mood_name executed
      = (Return (Some mood), executed ++ [select_mood_named normalized])
  | [] =>
      ∀ moods,
        rows self (select_moods_like ("%" +:+ normalized +:+ "%"))
        = Return moods →
        find_mood_by_name self mood_name executed
        = (Return (head moods),
           executed ++ [select_mood_named normalized;
                        select_moods_like ("%" +:+ normalized +:+ "%")])
  end.
Proof.
  intros Hn Hfound. destruct found as [|mood found].
  - intros moods Hmoods. rewrite (find_unfold _ _ normalized) by done.
    rewrite Hfound. cbv zeta. by rewrite Hmoods.
  - rewrite (find_unfold _ _ normalized) by done. by rewrite Hfound.
Qed.

(** X5. [find_mood_by_name] rejects the empty name before it executes a
    statement.  Two non-empty names with the same stripped lower-case
    form are the same lookup, and a name that spells an alias is looked
    up as its mood word: the statements never mention the alias. *)
Theorem find_by_any_spelling (self : Session) (executed : list Statement) :
  find_mood_by_name self "" executed
  = (Raise (mkExc MoodNotFoundError "Mood name cannot be empty"), executed)
  ∧ (∀ name1 name2,
       name1 ≠ "" → name2 ≠ "" →
       Str.lower (Str.strip name1) = Str.lower (Str.strip name2) →
       find_mood_by_name self name1 executed
       = find_mood_by_name self name2 executed)
  ∧ (∀ mood_name mood aliases,
       mood_name ≠ "" → (mood, aliases) ∈ mood_aliases →
       Str.lower (Str.strip mood_name) ∈ aliases →
       find_mood_by_name self mood_name executed
       = find_mood_by_name self mood executed).
Proof.
  split; [reflexivity|]. split.
  - intros name1 name2 H1 H2 Heq.
    pose proof (normalize_nonempty name1 H1) as E1.
    pose proof (normalize_nonempty name2 H2) as E2.
    rewrite Heq in E1.
    by rewrite (find_unfold _ _ _ _ E1), (find_unfold _ _ _ _ E2).
  - intros mood_name mood aliases Hne Hentry Hword.
    assert (E1 : _normalize_mood_name mood_name = Return mood).
    { eapply table_spelling_resolves; eauto. by right. }
    assert (E2 : _normalize_mood_name mood = Return mood).
    { pose proof mood_words_normal as Hnorm. rewrite Forall_forall in Hnorm.
      assert (Hin : mood ∈ mood_words).
      { apply list_elem_of_fmap. by exists (mood, aliases). }
      destruct (Hnorm _ Hin) as [Hfix Hmood].
      eapply table_spelling_resolves; eauto. rewrite Hfix. left. }
    by rewrite (find_unfold _ _ _ _ E1), (find_unfold _ _ _ _ E2).
Qed.

(** ** The properties at concrete names *)

(** X1 at a limit in range, a negative one and one that is too large. *)
Lemma normalize_limit_in_range_witness :
  ((1 ≤ 37 ≤ 100)%Z ∧ _normalize_limit 37 = 37%Z)
  ∧ ((-3 ≤ 0)%Z ∧ _normalize_limit (-3) = 50%Z)
  ∧ ((100 ≤ 250)%Z ∧ _normalize_limit 250 = 100%Z).
Proof.
  destruct (normalize_limit_in_range 37) as (_ & _ & H1 & _).
  destruct (normalize_limit_in_range (-3)) as (_ & _ & _ & H2 & _).
  destruct (normalize_limit_in_range 250) as (_ & _ & _ & _ & H3).
  assert (A1 : (1 ≤ 37 ≤ 100)%Z) by lia.
  assert (A2 : (-3 ≤ 0)%Z) by lia.
  assert (A3 : (100 ≤ 250)%Z) by lia.
  split; [split; [exact A1|exact (H1 A1)]|].
  split; [split; [exact A2|exact (H2 A2)]|].
  split; [exact A3|exact (H3 A3)].
Defined.

(** X2 at an alias in capitals with blanks around it. *)
Lemma alias_spellings_resolve_witness :
  "  CHEERFUL " ≠ ""
  ∧ ("happy", ["joy"; "cheerful"; "glad"; "pleased"]) ∈ mood_aliases
  ∧ Str.lower (Str.strip "  CHEERFUL ")
    ∈ "happy" :: ["joy"; "cheerful"; "glad"; "pleased"]
  ∧ _normalize_mood_name "  CHEERFUL " = Return "happy".
Proof.
  assert (H1 : "  CHEERFUL " ≠ "") by discriminate.
  assert (H2 : ("happy", ["joy"; "cheerful"; "glad"; "pleased"])
               ∈ mood_aliases) by left.
  assert (H3 : Str.lower (Str.strip "  CHEERFUL ")
               ∈ "happy" :: ["joy"; "cheerful"; "glad"; "pleased"]).
  { change (Str.lower (Str.strip "  CHEERFUL ")) with "cheerful".
    do 2 right. left. }
  split; [exact H1|]. split; [exact H2|]. split; [exact H3|].
  exact (alias_spellings_resolve "  CHEERFUL " "happy" _ H1 H2 H3).
Defined.

(** X3 at an alias, whose result is its mood word. *)
Lemma normalized_name_is_canonical_witness :
  _normalize_mood_name "  Blue " = Return "sad"
  ∧ ("sad" ∉ alias_words)
  ∧ Str.lower (Str.strip "sad") = "sad"
  ∧ ("sad" ≠ "" → _normalize_mood_name "sad" = Return "sad")
  ∧ ("sad" = "" ↔ Str.strip "  Blue " = "").
Proof.
  split; [reflexivity|].
  exact (normalized_name_is_canonical "  Blue " "sad" eq_refl).
Defined.

(** X4 at a name that is an alias of a mood of [sample_session]. *)
Lemma find_prefers_exact_match_witness :
  _normalize_mood_name " Joy" = Return "happy"
  ∧ rows sample_session (select_mood_named "happy")
    = Return [mkMood 2 "happy" (Some "sun") "positive" 1700000000 1700000500]
  ∧ find_mood_by_name sample_session " Joy" []
    = (Return (Some (mkMood 2 "happy" (Some "sun") "positive"
                       1700000000 1700000500)),
       [select_mood_named "happy"]).
Proof.
  split; [reflexivity|]. split; [reflexivity|].
  exact (find_prefers_exact_match sample_session " Joy" "happy"
           [mkMood 2 "happy" (Some "sun") "positive" 1700000000 1700000500]
           [] eq_refl eq_refl).
Defined.

(** X5 at two spellings of one name and at an alias. *)
Lemma find_by_any_spelling_witness :
  ("HAPPY " ≠ "" ∧ " happy" ≠ ""
   ∧ Str.lower (Str.strip "HAPPY ") = Str.lower (Str.strip " happy")
   ∧ find_mood_by_name sample_session "HAPPY " []
     = find_mood_by_name sample_session " happy" [])
  ∧ ("Glad" ≠ ""
     ∧ ("happy", ["joy"; "cheerful"; "glad"; "pleased"]) ∈ mood_aliases
     ∧ Str.lower (Str.strip "Glad") ∈ ["joy"; "cheerful"; "glad"; "pleased"]
     ∧ find_mood_by_name sample_session "Glad" []
       = find_mood_by_name sample_session "happy" []).
Proof.
  destruct (find_by_any_spelling sample_session []) as (_ & Hsame & Halias).
  assert (H1 : "HAPPY " ≠ "") by discriminate.
  assert (H2 : " happy" ≠ "") by discriminate.
  assert (H3 : "Glad" ≠ "") by discriminate.
  assert (H4 : ("happy", ["joy"; "cheerful"; "glad"; "pleased"])
               ∈ mood_aliases) by left.
  assert (H5 : Str.lower (Str.strip "Glad")
               ∈ ["joy"; "cheerful"; "glad"; "pleased"]).
  { change (Str.lower (Str.strip "Glad")) with "glad". do 2 right. left. }
  split.
  - split; [exact H1|]. split; [exact H2|]. split; [reflexivity|].
    exact (Hsame "HAPPY " " happy" H1 H2 eq_refl).
  - split; [exact H3|]. split; [exact H4|]. split; [exact H5|].
    exact (Halias "Glad" "happy" _ H3 H4 H5).
Defined.

(** X21 at a name that is no alias and at one that is. *)
Lemma stored_and_searched_names_agree_witness :
  (Str.strip " Content " ≠ ""
   ∧ (Str.lower (Str.strip " Content ") ∉ alias_words)
   ∧ _normalize_mood_name " Content " = MoodModel.validate_name " Content ")
  ∧ (Str.strip "Joy" ≠ ""
     ∧ Str.lower (Str.strip "Joy") ∈ alias_words
     ∧ _normalize_mood_name "Joy" ≠ MoodModel.validate_name "Joy").
Proof.
  assert (H1 : Str.strip " Content " ≠ "") by (vm_compute; discriminate).
  assert (H2 : Str.lower (Str.strip " Content ") ∉ alias_words).
  { apply (bool_decide_unpack _). vm_compute. exact I. }
  assert (H3 : Str.strip "Joy" ≠ "") by (vm_compute; discriminate).
  assert (H4 : Str.lower (Str.strip "Joy") ∈ alias_words).
  { change (Str.lower (Str.strip "Joy")) with "joy". left. }
  split.
  - split; [exact H1|]. split; [exact H2|].
    exact (proj1 (stored_and_searched_names_agree " Content " H1) H2).
  - split; [exact H3|]. split; [exact H4|].
    exact (proj2 (stored_and_searched_names_agree "Joy" H3) H4).
Defined.

End MoodLookupSpec.

(* ===================================================================== *)
(** * Properties of the streaks and of the time zone *)
(* ===================================================================== *)

Module MoodStreakSpec.
Import MoodStreak.

Local Open Scope Z_scope.

(** ** The longest streak *)

Lemma consecutive_tail d run : consecutive (d :: run) → consecutive run.
Proof. destruct run as [|d' run]; simpl; tauto. Qed.

Lemma longest_loop_ge previous rest : ∀ temp longest,
  longest ≤ longest_loop previous rest temp longest.
Proof.
  revert previous. induction rest as [|c rest IH]; intros previous temp longest;
    simpl; [lia|].
  destruct (previous - c =? 1).
  - etrans; [|apply IH]. lia.
  - apply IH.
Qed.

Lemma longest_loop_upper rest : ∀ previous temp longest pre run post,
  1 ≤ temp ≤ longest →
  previous :: rest = pre ++ run ++ post →
  consecutive run →
  (pre = [] → run ≠ [] →
   Z.of_nat (length run) + temp - 1
   ≤ longest_loop previous rest temp longest)
  ∧ Z.of_nat (length run) ≤ longest_loop previous rest temp longest.
Proof.
  induction rest as [|c rest IH];
    intros previous temp longest pre run post Ht Heq Hrun.
  - simpl. assert (Hlen : (length pre + length run + length post = 1)%nat).
    { apply (f_equal length) in Heq. rewrite !length_app in Heq.
      simpl in Heq. lia. }
    split; intros; lia.
  - destruct pre as [|p0 pre].
    + simpl in Heq. destruct run as [|r0 run].
      { pose proof (longest_loop_ge previous (c :: rest) temp longest).
        split; [done|]. simpl length. lia. }
      simpl in Heq. injection Heq as <- Heq.
      destruct run as [|r1 run].
      { pose proof (longest_loop_ge previous (c :: rest) temp longest).
        simpl length. split; intros; lia. }
      simpl in Heq. injection Heq as <- Heq.
      destruct Hrun as [Hstep Hrun]. simpl longest_loop.
      rewrite (proj2 (Z.eqb_eq _ _) Hstep).
      destruct (IH c (temp + 1) (Z.max longest (temp + 1)) []
                  (c :: run) post) as [H1 H2];
        [lia|by rewrite Heq|done|].
      specialize (H1 eq_refl ltac:(done)).
      simpl length in *. split; intros; lia.
    + simpl in Heq. injection Heq as <- Heq. simpl longest_loop.
      split; [done|].
      destruct (previous - c =? 1).
      * by destruct (IH c (temp + 1) (Z.max longest (temp + 1)) pre run post)
          as [_ H]; [lia|done|done|].
      * by destruct (IH c 1 longest pre run post) as [_ H]; [lia|done|done|].
Qed.

Lemma longest_loop_witness rest : ∀ previous temp longest,
  1 ≤ temp →
  longest_loop previous rest temp longest = longest
  ∨ (∃ run post,
       previous :: rest = run ++ post ∧ consecutive run ∧ run ≠ []
       ∧ Z.of_nat (length run) + temp - 1
         = longest_loop previous rest temp longest)
  ∨ (∃ pre run post,
       previous :: rest = pre ++ run ++ post ∧ consecutive run
       ∧ Z.of_nat (length run) = longest_loop previous rest temp longest).
Proof.
  induction rest as [|c rest IH]; intros previous temp longest Ht.
  - by left.
  - simpl longest_loop. destruct (previous - c =? 1) eqn:Hstep.
    + apply Z.eqb_eq in Hstep.
      destruct (IH c (temp + 1) (Z.max longest (temp + 1)) ltac:(lia))
        as [H | [(run & post & Heq & Hrun & Hne & Hlen)
               | (pre & run & post & Heq & Hrun & Hlen)]].
      * destruct (Z.max_spec longest (temp + 1)) as [[_ Hm] | [_ Hm]].
        -- right. left. exists [previous; c], rest.
           split; [done|]. split; [by simpl|]. split; [done|].
           simpl length. lia.
        -- left. lia.
      * right. left. exists (previous :: run), post.
        split; [by rewrite Heq|]. split.
        { destruct run as [|r0 run]; [done|].
          simpl in Heq. injection Heq as <- _. by split. }
        split; [done|]. simpl length. lia.
      * right. right. exists (previous :: pre), run, post.
        split; [by rewrite Heq|]. done.
    + destruct (IH c 1 longest ltac:(lia))
        as [H | [(run & post & Heq & Hrun & Hne & Hlen)
               | (pre & run & post & Heq & Hrun & Hlen)]].
      * by left.
      * right. right. exists [previous], run, post.
        split; [by rewrite Heq|]. split; [done|]. lia.
      * right. right. exists (previous :: pre), run, post.
        split; [by rewrite Heq|]. done.
Qed.

Lemma longest_run_cases (latest_date : Z) (rest : list Z) :
  let longest := longest_loop latest_date rest 1 1 in
  (∃ pre run post,
     latest_date :: rest = pre ++ run ++ post ∧ consecutive run
     ∧ Z.of_nat (length run) = longest)
  ∧ (∀ pre run post,
       latest_date :: rest = pre ++ run ++ post → consecutive run →
       Z.of_nat (length run) ≤ longest).
Proof.
  intros longest. split.
  - destruct (longest_loop_witness rest latest_date 1 1 ltac:(lia))
      as [H | [(run & post & Heq & Hrun & Hne & Hlen)
             | (pre & run & post & Heq & Hrun & Hlen)]].
    + exists [], [latest_date], rest. split; [done|]. split; [done|].
      unfold longest. rewrite H. done.
    + exists [], run, post. split; [done|]. split; [done|].
      unfold longest. lia.
    + by exists pre, run, post.
  - intros pre run post Heq Hrun.
    by destruct (longest_loop_upper rest latest_date 1 1 pre run post)
      as [_ H]; [lia|done|done|].
Qed.

(** X11. The longest streak the second loop computes is the length of the
    longest run of consecutive days in the list of dates: some stretch of
    the list is such a run of exactly that length, and no stretch that is
    a run is longer.  This holds for every non-empty list. *)
Theorem longest_streak_is_longest_run (latest_date : Z) (rest : list Z) :
  let longest := longest_loop latest_date rest 1 1 in
  (∃ pre run post,
     latest_date :: rest = pre ++ run ++ post ∧ consecutive run
     ∧ Z.of_nat (length run) = longest)
  ∧ (∀ pre run post,
       latest_date :: rest = pre ++ run ++ post → consecutive run →
       Z.of_nat (length run) ≤ longest).
Proof. apply longest_run_cases. Qed.

(** ** The time zone *)

Lemma get_user_timezone_cases (env : Env) (user_id : Z)
    (executed : list Statement) :
  (∀ e, user_settings env user_id = Raise e → is_Exception e = true) →
  ∃ zone,
    get_user_timezone env user_id executed
    = (Return zone, executed ++ [select_user_settings user_id])
    ∧ zone ≠ ""
    ∧ (∀ settings others stored,
         user_settings env user_id = Return (settings :: others) →
         time_zone settings = Some stored → stored ≠ "" → zone = stored)
    ∧ ((∀ settings others,
          user_settings env user_id = Return (settings :: others) →
          time_zone settings = None ∨ time_zone settings = Some "") →
       zone = "UTC").
Proof.
  intros Hexc. unfold get_user_timezone, exec_user_settings. monad.
  destruct (user_settings env user_id) as [[|settings others]|e] eqn:E; simpl.
  - exists "UTC". repeat split; try done.
  - destruct (time_zone settings) as [[|a zone]|] eqn:Ez; simpl.
    + exists "UTC". repeat split; try done.
      intros s o stored [= <- <-] Hs. rewrite Ez in Hs. by injection Hs as <-.
    + exists (String a zone). repeat split; try done.
      * intros s o stored [= <- <-] Hs. rewrite Ez in Hs. by injection Hs as <-.
      * intros H. destruct (H _ _ eq_refl) as [H'|H']; rewrite Ez in H'; done.
    + exists "UTC". repeat split; try done.
      intros s o stored [= <- <-] Hs. by rewrite Ez in Hs.
  - rewrite (Hexc e eq_refl). simpl. exists "UTC". repeat split; try done.
Qed.

(** X9. Unless the settings statement fails with something that is no
    [Exception], [get_user_timezone] returns normally after that one
    statement, and what it returns is never empty: the stored zone when
    the first settings row has a non-empty one, ["UTC"] in every other
    case, a failing statement included. *)
Theorem user_timezone_defaults_to_utc (env : Env) (user_id : Z)
    (executed : list Statement) :
  (∀ e, user_settings env user_id = Raise e → is_Exception e = true) →
  ∃ zone,
    get_user_timezone env user_id executed
    = (Return zone, executed ++ [select_user_settings user_id])
    ∧ zone ≠ ""
    ∧ (∀ settings others stored,
         user_settings env user_id = Return (settings :: others) →
         time_zone settings = Some stored → stored ≠ "" → zone = stored)
    ∧ ((∀ settings others,
          user_settings env user_id = Return (settings :: others) →
          time_zone settings = None ∨ time_zone settings = Some "") →
       zone = "UTC").
Proof. apply get_user_timezone_cases. Qed.

(** ** The current streak *)








(** ** The properties at [sample_env] *)

Lemma sample_settings_do_not_fail user_id :
  ∀ e, user_settings sample_env user_id = Raise e → is_Exception e = true.
Proof.
  intros e. simpl. destruct (user_id =? 7); discriminate.
Qed.



(** X9 for the user with a stored zone. *)
Lemma user_timezone_defaults_to_utc_witness :
  (∀ e, user_settings sample_env 7 = Raise e → is_Exception e = true)
  ∧ ∃ zone,
      get_user_timezone sample_env 7 []
      = (Return zone, [] ++ [select_user_settings 7])
      ∧ zone ≠ ""
      ∧ (∀ settings others stored,
           user_settings sample_env 7 = Return (settings :: others) →
           time_zone settings = Some stored → stored ≠ "" → zone = stored)
      ∧ ((∀ settings others,
            user_settings sample_env 7 = Return (settings :: others) →
            time_zone settings = None ∨ time_zone settings = Some "") →
         zone = "UTC").
Proof.
  split; [exact (sample_settings_do_not_fail 7)|].
  exact (user_timezone_defaults_to_utc sample_env 7 []
           (sample_settings_do_not_fail 7)).
Defined.

Example sample_zones :
  fst (get_user_timezone sample_env 7 []) = Return "Europe/Paris"
  ∧ fst (get_user_timezone sample_env 8 []) = Return "UTC".
Proof. split; reflexivity. Qed.


(** The three users of [sample_env]: a streak that reaches today, one
    that ended yesterday, and no dates at all. *)
Example sample_streaks :
  fst (get_mood_streak sample_env 7 [])
  = Return [("current_streak", 3); ("longest_streak", 3);
            ("total_days_logged", 5)]
  ∧ fst (get_mood_streak sample_env 8 [])
    = Return [("current_streak", 1); ("longest_streak", 3);
              ("total_days_logged", 3)]
  ∧ fst (get_mood_streak sample_env 9 [])
    = Return [("current_streak", 0); ("longest_streak", 0)].
Proof. repeat split; reflexivity. Qed.

(** X11 at a list with a run of three and a run of two. *)
Lemma longest_streak_is_longest_run_witness :
  [10; 9; 8; 5; 4] = [] ++ [10; 9; 8] ++ [5; 4]
  ∧ consecutive [10; 9; 8]
  ∧ Z.of_nat (length [10; 9; 8]) ≤ longest_loop 10 [9; 8; 5; 4] 1 1.
Proof.
  assert (Hrun : consecutive [10; 9; 8]) by (simpl; lia).
  split; [reflexivity|]. split; [exact Hrun|].
  exact (proj2 (longest_streak_is_longest_run 10 [9; 8; 5; 4])
           [] [10; 9; 8] [5; 4] eq_refl Hrun).
Defined.


End MoodStreakSpec.

(* ===================================================================== *)
(** * Further properties of the file-processing pool *)
(* ===================================================================== *)

Module PoolSpec.
Import FileProcessing PoolAccounting FileProcessingSpec.

(** X13. [get_processing_status] returns a [dict] in every state and the
    [dict] carries the shutting-down flag.  It opens no session and
    leaves the flag alone; with an executor in place it changes nothing
    and reports that executor; with none and the flag set it reports the
    error text instead of raising. *)
Theorem status_never_raises (w : World) :
  ∃ d w',
    get_processing_status w = (Return d, w')
    ∧ sessions w' = sessions w
    ∧ _is_shutting_down w' = _is_shutting_down w
    ∧ ("is_shutting_down", VBool (_is_shutting_down w)) ∈ d
    ∧ (∀ executor, _processing_executor w = Some executor →
         w' = w
         ∧ d = [("is_shutting_down", VBool (_is_shutting_down w));
                ("max_workers", VInt (_max_workers executor));
                ("active_threads", VInt (_threads executor));
                ("pending_tasks", VInt (length (_work_queue executor)));
                ("shutdown", VBool (_shutdown executor))])
    ∧ (_processing_executor w = None → _is_shutting_down w = true →
       _processing_executor w' = None
       ∧ d = [("error",
               VStr "Thread pool executor is not available (shutting down)");
              ("is_shutting_down", VBool true)]).
Proof.
  destruct w as [[ex|] flag ss lg]; simpl.
  - eexists _, _. split; [reflexivity|]. simpl.
    split; [done|]. split; [done|]. split; [by left|]. split; [|done].
    by intros ? [= <-].
  - destruct flag; simpl; eexists _, _; (split; [reflexivity|]); simpl;
      (split; [done|]); (split; [done|]).
    + split; [by right; left|]. split; [done|]. done.
    + split; [by left|]. split; done.
Qed.

(** X14. Whenever [process_uploaded_file_async] raises, the exception is a
    [ValueError] or a [RuntimeError], it is the last record of the log,
    and the executor slot, the flag and the sessions are as before the
    call. *)
Theorem failed_submit_changes_nothing (j : Job) (w w' : World) (e : PyExc) :
  process_uploaded_file_async j w = (Raise e, w') →
  w' = {| _processing_executor := _processing_executor w;
          _is_shutting_down := _is_shutting_down w;
          sessions := sessions w;
          log := log w ++ [error e] |}
  ∧ (exc_class e = ValueError ∨ exc_class e = RuntimeError).
Proof.
  destruct (admissible j) eqn:Hj.
  - rewrite admissible_submit_cases by done. cbv zeta.
    destruct (_processing_executor w) as [ex|] eqn:Eex,
      (_is_shutting_down w) eqn:Ef; try discriminate.
    + unfold executor_submit. destruct (_shutdown ex); [|discriminate].
      intros [= <- <-]. auto.
    + unfold executor_submit. destruct (_shutdown ex); [|discriminate].
      intros [= <- <-]. auto.
    + intros [= <- <-]. auto.
  - apply malformed_not_admissible in Hj.
    destruct (validation_stops_malformed j w Hj) as [msg ->].
    intros [= <- <-]. auto.
Qed.

(** ** Accounting *)

Section Accounting.
Variable step : Job → Result unit.

Lemma shutdown_executor_drains w :
  _is_shutting_down w = false →
  ∃ lg,
    _shutdown_executor step w
    = (Return tt,
       {| _processing_executor := None; _is_shutting_down := false;
          sessions := sessions w ++ replicate (pending w) false;
          log := log w ++ lg |}).
Proof.
  intros Hf. unfold _shutdown_executor, pending. monad. rewrite Hf.
  destruct w as [[ex|] flag ss lg]; simpl in *; subst flag.
  - unfold executor_shutdown, log_info, emit. monad. simpl.
    edestruct (worker_survives_every_job step (_work_queue ex)) as (lg' & ->).
    simpl. eexists. rewrite <- app_assoc. reflexivity.
  - exists []. by rewrite !app_nil_r.
Qed.

(** The state kept between calls: the sessions opened so far are those
    of the [n] accepted jobs that are no longer waiting, all closed; the
    executor, if any, is the four-worker one. *)
Lemma call_accounts c w n :
  quiescent w →
  sessions w = replicate (n - pending w) false → pending w ≤ n →
  (∀ ex, _processing_executor w = Some ex →
         _max_workers ex = 4 ∧ _threads ex ≤ 4) →
  let w' := snd (call step c w) in
  sessions w' = replicate (accepted [c] + n - pending w') false
  ∧ pending w' ≤ accepted [c] + n
  ∧ (∀ ex, _processing_executor w' = Some ex →
           _max_workers ex = 4 ∧ _threads ex ≤ 4).
Proof.
  intros [Hf Hex] Hs Hp Hb w'. subst w'.
  destruct c as [j| |wait|]; unfold call; monad.
  - simpl accepted. destruct (admissible j) eqn:Hj.
    + rewrite admissible_submit_cases, Hf by done. unfold pending in *.
      destruct (_processing_executor w) as [ex|] eqn:E; simpl.
      * unfold executor_submit. rewrite (Hex ex eq_refl). simpl.
        rewrite length_app. simpl. destruct (Hb ex eq_refl) as [Hm Ht].
        split; [rewrite Hs; f_equal; lia|]. split; [lia|].
        intros ? [= <-]. simpl. split; [done|].
        repeat case_bool_decide; lia.
      * split; [rewrite Hs; f_equal; lia|]. split; [lia|].
        intros ? [= <-]. simpl. lia.
    + apply malformed_not_admissible in Hj.
      destruct (validation_stops_malformed j w Hj) as [msg ->].
      unfold pending in *. simpl. done.
  - simpl accepted. unfold pending in *.
    destruct w as [[ex|] flag ss lg]; simpl in *; subst flag; simpl.
    + done.
    + split; [done|]. split; [lia|]. intros ? [= <-]. simpl. lia.
  - simpl accepted. unfold shutdown_processing. monad.
    destruct (shutdown_executor_drains w Hf) as (lg & ->).
    unfold log_info, emit. monad.
    assert (Hrep : sessions w ++ replicate (pending w) false
                   = replicate (n - 0) false).
    { rewrite Hs, <- replicate_add. f_equal. lia. }
    destruct wait; simpl; unfold pending; simpl; (split; [exact Hrep|]);
      (split; [lia|done]).
  - simpl accepted. unfold worker_step. monad. unfold pending in *.
    destruct (_processing_executor w) as [ex|] eqn:E; simpl;
      [|by rewrite E].
    destruct (_work_queue ex) as [|j q] eqn:Eq; simpl.
    { rewrite E, Eq. done. }
    unfold work_item_run.
    edestruct (worker_body_frame step j) as (r & lg & ->). simpl.
    simpl in Hs, Hp. split.
    + rewrite Hs, <- replicate_S_end. f_equal. lia.
    + split; [lia|]. intros ? [= <-]. simpl. by apply Hb.
Qed.

Lemma calls_account cs :
  let w := calls step cs initial in
  quiescent w
  ∧ sessions w = replicate (accepted cs - pending w) false
  ∧ pending w ≤ accepted cs
  ∧ (∀ ex, _processing_executor w = Some ex →
           _max_workers ex = 4 ∧ _threads ex ≤ 4).
Proof.
  assert (Hgen : ∀ cs w n,
    quiescent w →
    sessions w = replicate (n - pending w) false → pending w ≤ n →
    (∀ ex, _processing_executor w = Some ex →
           _max_workers ex = 4 ∧ _threads ex ≤ 4) →
    quiescent (calls step cs w)
    ∧ sessions (calls step cs w)
      = replicate (accepted cs + n - pending (calls step cs w)) false
    ∧ pending (calls step cs w) ≤ accepted cs + n
    ∧ (∀ ex, _processing_executor (calls step cs w) = Some ex →
             _max_workers ex = 4 ∧ _threads ex ≤ 4)).
  { clear cs. induction cs as [|c cs IH]; intros w n Hq Hs Hp Hb.
    - simpl. done.
    - simpl calls.
      destruct (call_accounts c w n Hq Hs Hp Hb) as (Hs' & Hp' & Hb').
      pose proof (call_keeps_quiescent step c w Hq) as Hq'.
      destruct (IH _ _ Hq' Hs' Hp' Hb') as (H1 & H2 & H3 & H4).
      assert (Hacc : accepted (c :: cs) = accepted cs + accepted [c]).
      { destruct c as [j| | |]; simpl; lia. }
      rewrite Hacc. split; [done|].
      split; [by rewrite <- Nat.add_assoc|]. split; [lia|done]. }
  intros w. subst w.
  assert (Hq : quiescent initial).
  { split; [done|]. intros ex. discriminate. }
  assert (Hb : ∀ ex, _processing_executor initial = Some ex →
                     _max_workers ex = 4 ∧ _threads ex ≤ 4).
  { intros ex. discriminate. }
  destruct (Hgen cs initial 0 Hq eq_refl (Nat.le_refl 0) Hb)
    as (H1 & H2 & H3 & H4).
  rewrite Nat.add_0_r in H2, H3. done.
Qed.


(** X16. An executor found in the slot after any sequence of calls has
    [max_workers] 4, has started at most four worker threads and accepts
    work; the shutting-down flag is clear. *)
Theorem pool_never_exceeds_four_workers (cs : list Call) (ex : ThreadPoolExecutor) :
  _processing_executor (calls step cs initial) = Some ex →
  _max_workers ex = 4 ∧ _threads ex ≤ 4 ∧ _shutdown ex = false
  ∧ _is_shutting_down (calls step cs initial) = false.
Proof.
  intros He. destruct (calls_account cs) as ([Hf Hq] & _ & _ & Hb).
  destruct (Hb ex He). split; [done|]. split; [done|]. split; [|done].
  by apply Hq.
Qed.

End Accounting.

(** ** The properties at concrete states *)

(** X13 with the pool running. *)
Lemma status_never_raises_witness :
  let w := calls step_ok [Submit sample_job] initial in
  _processing_executor w = Some (fresh_executor_with sample_job)
  ∧ get_processing_status w
    = (Return [("is_shutting_down", VBool false); ("max_workers", VInt 4);
               ("active_threads", VInt 1); ("pending_tasks", VInt 1);
               ("shutdown", VBool false)], w).
Proof.
  intros w.
  destruct (status_never_raises w) as (d & w' & Hrun & _ & _ & _ & Hsome & _).
  destruct (Hsome (fresh_executor_with sample_job) eq_refl) as [Hw Hd].
  split; [reflexivity|]. rewrite Hrun, Hw, Hd. reflexivity.
Defined.

(** X14 at a descriptor without a media id. *)
Lemma failed_submit_changes_nothing_witness :
  let j := {| media_id := ""; file_path := "/data/media/upload.png";
              user_id := user_id sample_job |} in
  let e := mkExc ValueError "media_id, file_path, and user_id are required" in
  let w' := {| _processing_executor := None; _is_shutting_down := false;
               sessions := []; log := [error e] |} in
  process_uploaded_file_async j initial = (Raise e, w')
  ∧ w' = {| _processing_executor := _processing_executor initial;
            _is_shutting_down := _is_shutting_down initial;
            sessions := sessions initial;
            log := log initial ++ [error e] |}
  ∧ (exc_class e = ValueError ∨ exc_class e = RuntimeError).
Proof.
  intros j e w'. split; [reflexivity|].
  exact (failed_submit_changes_nothing j initial w' e eq_refl).
Defined.

(** Five submissions, one of them malformed, two worker steps and a
    shutdown: four closed sessions. *)
Example four_jobs_four_sessions :
  let bad := {| media_id := "x"; file_path := "/f"; user_id := "y" |} in
  let cs := [Submit sample_job; Submit bad; Submit sample_job; Worker;
             Status; Submit sample_job; Worker; Submit sample_job] in
  accepted cs = 4
  ∧ pending (calls step_faulty cs initial) = 2
  ∧ sessions (calls step_faulty cs initial) = [false; false]
  ∧ sessions (calls step_faulty (cs ++ [Shutdown true]) initial)
    = [false; false; false; false].
Proof. repeat split; reflexivity. Qed.

(** X16 after six submissions. *)
Lemma pool_never_exceeds_four_workers_witness :
  let cs := replicate 6 (Submit sample_job) in
  let ex := {| _max_workers := 4; thread_name_prefix := "file-processing";
               _threads := 4; _idle_semaphore := 0;
               _work_queue := replicate 6 sample_job; _shutdown := false |} in
  _processing_executor (calls step_ok cs initial) = Some ex
  ∧ _max_workers ex = 4 ∧ _threads ex ≤ 4 ∧ _shutdown ex = false
  ∧ _is_shutting_down (calls step_ok cs initial) = false.
Proof.
  intros cs ex. split; [reflexivity|].
  exact (pool_never_exceeds_four_workers step_ok cs ex eq_refl).
Defined.

End PoolSpec.

(* ===================================================================== *)
(** * Loading, serving and reloading through the mood cache *)
(* ===================================================================== *)

Module MoodCacheSpec.
Import MoodService MoodServiceSpec.

(** The lookup-or-load body of the two queries on a hit: the records of
    the snapshot, no statement. *)
Lemma lookup_or_load_hit self key statement w snap :
  closed w → snapshot w key = Some snap →
  ∃ r w',
    (cached ← _get_cached_moods key;
     match cached with
     | Some cached => mret cached
     | None =>
         moods ← exec_list self statement;
         _store_cache key moods;;
         mret moods
     end) w = (Return r, w')
    ∧ view w' r = snap
    ∧ executed w' = executed w
    ∧ _mood_cache w' = _mood_cache w
    ∧ snapshot w' key = Some snap
    ∧ closed w'.
Proof.
  intros Hclosed Hsnap. unfold snapshot in Hsnap.
  destruct (_mood_cache w !! key) as [l|] eqn:Hk; [|discriminate].
  injection Hsnap as <-.
  destruct (closed_cached w key l Hclosed Hk) as (items & Hl & Hlive).
  destruct (get_cached_hit key w l Hk)
    as (cs & w1 & Hget & Hl1 & Hc1 & He1 & Hsub & Hfresh & Hlive1 & Hview).
  assert (Hthe : the_list w l = items) by (unfold the_list; by rewrite Hl).
  rewrite Hthe in Hview. specialize (Hview Hlive).
  unfold mbind at 1, M_bind at 1, bind at 1. rewrite Hget.
  eexists _, w1. split; [reflexivity|]. split; [exact Hview|].
  split; [exact He1|]. split; [exact Hc1|].
  assert (Hr : list_objs w !! fresh (dom (list_objs w)) = None)
    by apply fresh_list_unused.
  split.
  - unfold snapshot. rewrite Hc1, Hk. simpl. f_equal.
    apply (view_agree w w1 l items); [done| |].
    + rewrite Hl1, lookup_insert_ne; [done|congruence].
    + eapply Forall_impl; [exact Hlive|]. intros a [m Hm]. cbv beta.
      split; [eauto|]. rewrite Hm. by eapply lookup_weaken.
  - eapply closed_alloc; eauto.
Qed.

(** ... and on a miss that the session answers: the rows, now cached. *)
Lemma lookup_or_load_miss self key statement w rows :
  closed w → _mood_cache w !! key = None →
  session self statement = Return rows →
  ∃ r w',
    (cached ← _get_cached_moods key;
     match cached with
     | Some cached => mret cached
     | None =>
         moods ← exec_list self statement;
         _store_cache key moods;;
         mret moods
     end) w = (Return r, w')
    ∧ view w' r = rows
    ∧ executed w' = executed w ++ [statement]
    ∧ (∀ k, k ≠ key → _mood_cache w' !! k = _mood_cache w !! k)
    ∧ snapshot w' key = Some rows
    ∧ closed w'.
Proof.
  intros Hclosed Hmiss Hrows.
  destruct ((cached ← _get_cached_moods key;
             match cached with
             | Some cached => mret cached
             | None =>
                 moods ← exec_list self statement;
                 _store_cache key moods;;
                 mret moods
             end) w) as [res wend] eqn:Hrun.
  pose proof (lookup_or_load_closed _ _ _ _ _ _ Hrun Hclosed) as Hclosed'.
  revert Hrun.
  unfold mbind at 1, M_bind at 1, bind at 1.
  rewrite get_cached_miss by done.
  unfold mbind at 1, M_bind at 1, bind at 1.
  destruct (exec_list_returns self statement w rows Hrows)
    as (items & w1 & -> & Hl1 & Hc1 & He1 & Hsub1 & Hlive1 & Hview1).
  set (l := fresh (dom (list_objs w))) in *.
  monad.
  destruct (store_cache_spec key l w1)
    as (cs & w2 & -> & Hl2 & Hc2 & He2 & Hsub2 & Hfresh2 & Hlive2 & Hview2).
  intros [= <- <-].
  assert (Hthe1 : the_list w1 l = items).
  { unfold the_list. by rewrite Hl1, lookup_insert_eq. }
  rewrite Hthe1 in Hview2. specialize (Hview2 Hlive1).
  assert (Hll : list_objs w1 !! l = Some items).
  { by rewrite Hl1, lookup_insert_eq. }
  assert (Hl2l : list_objs w2 !! l = Some items).
  { rewrite Hl2, lookup_insert_ne; [done|]. intros Heq.
    pose proof (fresh_list_unused w1) as Hf. rewrite Heq in Hf. congruence. }
  assert (Hret : view w2 l = view w1 l).
  { apply (view_agree w1 w2 l items); [done|done|].
    eapply Forall_impl; [exact Hlive1|]. intros a [m Hm]. cbv beta.
    split; [eauto|]. rewrite Hm. by eapply lookup_weaken. }
  eexists _, _. split; [reflexivity|].
  split; [by rewrite Hret|]. split; [by rewrite He2|]. split.
  - intros k Hk. by rewrite Hc2, lookup_insert_ne, Hc1.
  - split; [|exact Hclosed'].
    unfold snapshot. rewrite Hc2, lookup_insert_eq. simpl.
    by rewrite Hview2, Hview1.
Qed.

(** X17. On a miss that the session answers, [get_all_moods] executes its
    one statement, returns the rows and touches no slot but ["__all__"].
    From then on [get_all_moods] returns those rows without executing a
    statement, through whatever session it is called: what the storage
    holds by then is not consulted. *)
Theorem all_moods_are_loaded_once (self : MoodService) (w : World)
    (rows : list Mood) :
  closed w → _mood_cache w !! "__all__" = None →
  session self select_moods = Return rows →
  ∃ r w1,
    get_all_moods self w = (Return r, w1)
    ∧ view w1 r = rows
    ∧ executed w1 = executed w ++ [select_moods]
    ∧ (∀ key, key ≠ "__all__" → _mood_cache w1 !! key = _mood_cache w !! key)
    ∧ ∀ self', ∃ r' w2,
        get_all_moods self' w1 = (Return r', w2)
        ∧ view w2 r' = rows
        ∧ executed w2 = executed w1.
Proof.
  intros Hclosed Hmiss Hrows.
  destruct (lookup_or_load_miss self "__all__" select_moods w rows
              Hclosed Hmiss Hrows)
    as (r & w1 & Hrun & Hview & Hexec & Hkeys & Hsnap & Hclosed1).
  exists r, w1. split; [exact Hrun|]. split; [exact Hview|].
  split; [exact Hexec|]. split; [exact Hkeys|].
  intros self'.
  destruct (lookup_or_load_hit self' "__all__" select_moods w1 rows
              Hclosed1 Hsnap)
    as (r' & w2 & Hrun' & Hview' & Hexec' & _).
  exists r', w2. split; [exact Hrun'|]. done.
Qed.

(** X18. The same for [get_moods_by_category]: on a miss the rows of the
    statement for the lower-case category are returned, and afterwards
    every spelling of that category is served those rows without a
    statement, through whatever session. *)
Theorem category_moods_are_loaded_once (self : MoodService) (w : World)
    (category : string) (rows : list Mood) :
  closed w → is_category (Str.lower category) →
  _mood_cache w !! Str.lower category = None →
  session self (select_moods_where (Str.lower category)) = Return rows →
  ∃ r w1,
    get_moods_by_category self category w = (Return r, w1)
    ∧ view w1 r = rows
    ∧ executed w1 = executed w ++ [select_moods_where (Str.lower category)]
    ∧ ∀ self' spelling,
        Str.lower spelling = Str.lower category →
        ∃ r' w2,
          get_moods_by_category self' spelling w1 = (Return r', w2)
          ∧ view w2 r' = rows
          ∧ executed w2 = executed w1.
Proof.
  intros Hclosed Hcat Hmiss Hrows.
  rewrite by_category_valid by done.
  destruct (lookup_or_load_miss self (Str.lower category)
              (select_moods_where (Str.lower category)) w rows
              Hclosed Hmiss Hrows)
    as (r & w1 & Hrun & Hview & Hexec & Hkeys & Hsnap & Hclosed1).
  exists r, w1. split; [exact Hrun|]. split; [exact Hview|].
  split; [exact Hexec|].
  intros self' spelling Hsp.
  rewrite by_category_valid by (by rewrite Hsp). rewrite Hsp.
  destruct (lookup_or_load_hit self' (Str.lower category)
              (select_moods_where (Str.lower category)) w1 rows
              Hclosed1 Hsnap)
    as (r' & w2 & Hrun' & Hview' & Hexec' & _).
  exists r', w2. split; [exact Hrun'|]. done.
Qed.

(** X19. After [invalidate_mood_cache] the next [get_all_moods] and the
    next [get_moods_by_category] go to the storage again: each executes
    its statement and returns the rows the session yields now. *)
Theorem invalidation_forces_reload (self : MoodService) (w : World) :
  closed w →
  (∀ rows, session self select_moods = Return rows →
     ∃ r w',
       get_all_moods self (snd (invalidate_mood_cache w)) = (Return r, w')
       ∧ view w' r = rows
       ∧ executed w' = executed w ++ [select_moods])
  ∧ (∀ category rows,
       is_category (Str.lower category) →
       session self (select_moods_where (Str.lower category)) = Return rows →
       ∃ r w',
         get_moods_by_category self category (snd (invalidate_mood_cache w))
         = (Return r, w')
         ∧ view w' r = rows
         ∧ executed w'
           = executed w ++ [select_moods_where (Str.lower category)]).
Proof.
  intros Hclosed.
  assert (Hclosed0 : closed (snd (invalidate_mood_cache w))).
  { destruct Hclosed as [_ Hl]. split; [|exact Hl]. simpl.
    apply map_Forall_empty. }
  split.
  - intros rows Hrows.
    destruct (lookup_or_load_miss self "__all__" select_moods
                (snd (invalidate_mood_cache w)) rows Hclosed0 eq_refl Hrows)
      as (r & w1 & Hrun & Hview & Hexec & _).
    exists r, w1. split; [exact Hrun|]. done.
  - intros category rows Hcat Hrows. rewrite by_category_valid by done.
    destruct (lookup_or_load_miss self (Str.lower category)
                (select_moods_where (Str.lower category))
                (snd (invalidate_mood_cache w)) rows Hclosed0 eq_refl Hrows)
      as (r & w1 & Hrun & Hview & Hexec & _).
    exists r, w1. split; [exact Hrun|]. done.
Qed.

(** The list a load hands to the caller is the session's; the cache keeps
    a copy of it that the caller cannot reach. *)
Lemma loaded_list_is_not_cached self key statement w rows r w1 :
  closed w → _mood_cache w !! key = None →
  session self statement = Return rows →
  (cached ← _get_cached_moods key;
   match cached with
   | Some cached => mret cached
   | None =>
       moods ← exec_list self statement;
       _store_cache key moods;;
       mret moods
   end) w = (Return r, w1) →
  ∀ w2, caller_mutation w1 r w2 → snapshot w2 key = Some rows.
Proof.
  intros Hclosed Hmiss Hrows.
  unfold mbind at 1, M_bind at 1, bind at 1.
  rewrite get_cached_miss by done.
  unfold mbind at 1, M_bind at 1, bind at 1.
  destruct (exec_list_returns self statement w rows Hrows)
    as (items & w0 & -> & Hl0 & Hc0 & He0 & Hsub0 & Hlive0 & Hview0).
  set (l := fresh (dom (list_objs w))) in *.
  monad.
  destruct (store_cache_spec key l w0)
    as (cs & w' & -> & Hl' & Hc' & He' & Hsub' & Hfresh' & Hlive' & Hview').
  intros [= <- <-] w2 (Hc2 & Hl2 & Hm2).
  set (l' := fresh (dom (list_objs w0))) in *.
  assert (Hthe0 : the_list w0 l = items).
  { unfold the_list. by rewrite Hl0, lookup_insert_eq. }
  rewrite Hthe0 in Hview'. specialize (Hview' Hlive0).
  assert (Hne : l' ≠ l).
  { intros Heq. pose proof (fresh_list_unused w0) as Hf. fold l' in Hf.
    rewrite Heq, Hl0, lookup_insert_eq in Hf. discriminate. }
  assert (Hl'l' : list_objs w' !! l' = Some cs).
  { by rewrite Hl', lookup_insert_eq. }
  assert (Hthe' : the_list w' l = items).
  { unfold the_list. rewrite Hl', lookup_insert_ne, Hl0, lookup_insert_eq;
      done. }
  assert (Hview2 : view w2 l' = view w' l').
  { apply (view_agree w' w2 l' cs); [done| |].
    - rewrite Hl2; [done|done|]. rewrite Hl'l'. eauto.
    - rewrite Forall_forall. intros a Ha.
      assert (is_Some (mood_objs w' !! a)) as Hsome.
      { rewrite Forall_forall in Hlive'. by apply Hlive'. }
      split; [done|]. apply Hm2; [|done].
      rewrite Hthe'. intros Hin.
      rewrite Forall_forall in Hfresh', Hlive0.
      specialize (Hfresh' a Ha). destruct (Hlive0 a Hin) as [m Hm].
      congruence. }
  unfold snapshot. rewrite Hc2, Hc', lookup_insert_eq. simpl.
  by rewrite Hview2, Hview', Hview0.
Qed.

(** X20. The list a caller gets from a load (a miss) is not the cached one:
    whatever the caller does to that list and to the records in it, the
    snapshot stored under the key is still the rows that were loaded. *)
Theorem loaded_result_is_isolated (self : MoodService) (w : World)
    (rows : list Mood) (r : loc) (w1 : World) :
  closed w →
  (_mood_cache w !! "__all__" = None →
   session self select_moods = Return rows →
   get_all_moods self w = (Return r, w1) →
   ∀ w2, caller_mutation w1 r w2 → snapshot w2 "__all__" = Some rows)
  ∧ (∀ category,
       is_category (Str.lower category) →
       _mood_cache w !! Str.lower category = None →
       session self (select_moods_where (Str.lower category)) = Return rows →
       get_moods_by_category self category w = (Return r, w1) →
       ∀ w2, caller_mutation w1 r w2 →
             snapshot w2 (Str.lower category) = Some rows).
Proof.
  intros Hclosed. split.
  - intros Hmiss Hrows Hrun.
    by eapply (loaded_list_is_not_cached self "__all__" select_moods).
  - intros category Hcat Hmiss Hrows Hrun.
    rewrite by_category_valid in Hrun by done.
    by eapply (loaded_list_is_not_cached self (Str.lower category)
                 (select_moods_where (Str.lower category))).
Qed.

(** ** The properties at concrete states *)

(** X17 from the empty cache. *)
Lemma all_moods_are_loaded_once_witness :
  closed empty_world ∧ _mood_cache empty_world !! "__all__" = None
  ∧ session sample_service select_moods = Return sample_moods
  ∧ ∃ r w1,
      get_all_moods sample_service empty_world = (Return r, w1)
      ∧ view w1 r = sample_moods
      ∧ executed w1 = executed empty_world ++ [select_moods]
      ∧ (∀ key, key ≠ "__all__" →
                _mood_cache w1 !! key = _mood_cache empty_world !! key)
      ∧ ∀ self', ∃ r' w2,
          get_all_moods self' w1 = (Return r', w2)
          ∧ view w2 r' = sample_moods
          ∧ executed w2 = executed w1.
Proof.
  split; [exact closed_empty|]. split; [reflexivity|]. split; [reflexivity|].
  exact (all_moods_are_loaded_once sample_service empty_world sample_moods
           closed_empty eq_refl eq_refl).
Defined.

(** The storage fails after the first load; the rows are still served. *)
Example served_while_storage_is_down :
  let w := ops [GetAll sample_service] empty_world in
  match get_all_moods failing_service w with
  | (Return r, w') => view w' r = sample_moods ∧ executed w' = [select_moods]
  | _ => False
  end.
Proof. vm_compute. split; reflexivity. Qed.

(** X18 from the empty cache, the category given with a capital. *)
Lemma category_moods_are_loaded_once_witness :
  let rows := filter (λ m, category m = "positive") sample_moods in
  closed empty_world ∧ is_category (Str.lower "Positive")
  ∧ _mood_cache empty_world !! Str.lower "Positive" = None
  ∧ session sample_service (select_moods_where (Str.lower "Positive"))
    = Return rows
  ∧ ∃ r w1,
      get_moods_by_category sample_service "Positive" empty_world
      = (Return r, w1)
      ∧ view w1 r = rows
      ∧ executed w1
        = executed empty_world ++ [select_moods_where (Str.lower "Positive")]
      ∧ ∀ self' spelling,
          Str.lower spelling = Str.lower "Positive" →
          ∃ r' w2,
            get_moods_by_category self' spelling w1 = (Return r', w2)
            ∧ view w2 r' = rows
            ∧ executed w2 = executed w1.
Proof.
  assert (Hc : is_category (Str.lower "Positive")) by (left; reflexivity).
  split; [exact closed_empty|]. split; [exact Hc|].
  split; [reflexivity|]. split; [reflexivity|].
  exact (category_moods_are_loaded_once sample_service empty_world "Positive"
           _ closed_empty Hc eq_refl eq_refl).
Defined.

(** X19 after a load: the reload goes to the storage again. *)
Lemma invalidation_forces_reload_witness :
  let w := ops [GetAll sample_service] empty_world in
  closed w
  ∧ session sample_service select_moods = Return sample_moods
  ∧ ∃ r w',
      get_all_moods sample_service (snd (invalidate_mood_cache w))
      = (Return r, w')
      ∧ view w' r = sample_moods
      ∧ executed w' = executed w ++ [select_moods].
Proof.
  assert (Hc : closed (ops [GetAll sample_service] empty_world)).
  { apply ops_closed, closed_empty. }
  split; [exact Hc|]. split; [reflexivity|].
  exact (proj1 (invalidation_forces_reload sample_service _ Hc)
           sample_moods eq_refl).
Defined.

(** X20 at the first load through [sample_service]. *)
Lemma loaded_result_is_isolated_witness :
  closed empty_world ∧ _mood_cache empty_world !! "__all__" = None
  ∧ session sample_service select_moods = Return sample_moods
  ∧ ∃ r w1,
      get_all_moods sample_service empty_world = (Return r, w1)
      ∧ ∀ w2, caller_mutation w1 r w2 →
              snapshot w2 "__all__" = Some sample_moods.
Proof.
  split; [exact closed_empty|]. split; [reflexivity|]. split; [reflexivity|].
  destruct (lookup_or_load_miss sample_service "__all__" select_moods
              empty_world sample_moods closed_empty eq_refl eq_refl)
    as (r & w1 & Hrun & _).
  exists r, w1. split; [exact Hrun|].
  exact (proj1 (loaded_result_is_isolated sample_service empty_world
                  sample_moods r w1 closed_empty)
           eq_refl eq_refl Hrun).
Defined.

(** The list a load returns is cleared and a record of it renamed; the
    cache still serves the three rows. *)
Example tampering_with_a_loaded_list :
  match get_all_moods sample_service empty_world with
  | (Return r, w1) =>
      let w2 := list_clear r (set_name r 0 "tampered" w1) in
      view w2 r = [] ∧ snapshot w2 "__all__" = Some sample_moods
  | _ => False
  end.
Proof. vm_compute. split; reflexivity. Qed.

End MoodCacheSpec.
